(** * ristretto255: field arithmetic over GF(2^255 - 19), x86_64 back-end

    A shallow embedding of [src/arch/x86_64/f_impl.h] (five 51-bit limbs in
    64-bit words) and of the success-tag helpers of [include/ristretto255.h],
    with the properties of the reductions, predicates, wire format and
    inverse square root. *)

From Stdlib Require Import ZArith Znumtheory Zpow_facts Lia List Bool Zmod.
From Stdlib.Strings Require Import Byte.
Import ListNotations.
Local Open Scope Z_scope.

(** ** Machine integers

    C integers are modelled as [Z] with the wrap-around written out. *)

(** Conversion to an unsigned type of [bits] bits. *)
Definition wrap (bits x : Z) : Z := x mod 2 ^ bits.

(** Conversion to a signed (two's complement) type of [bits] bits. *)
Definition swrap (bits x : Z) : Z :=
  (x + 2 ^ (bits - 1)) mod 2 ^ bits - 2 ^ (bits - 1).

Definition RISTRETTO_WORD_BITS : Z := 64.

(** [ristretto_word_t], [ristretto_bool_t], [mask_t]: uint64_t. *)
Definition u64 : Z -> Z := wrap RISTRETTO_WORD_BITS.
(** [ristretto_dword_t]: __uint128_t. *)
Definition u128 : Z -> Z := wrap (2 * RISTRETTO_WORD_BITS).
(** [ristretto_dsword_t]: __int128_t. *)
Definition s128 : Z -> Z := swrap (2 * RISTRETTO_WORD_BITS).
(** [unsigned int] and [int]. *)
Definition u32 : Z -> Z := wrap 32.
Definition s32 : Z -> Z := swrap 32.
(** [uint8_t]. *)
Definition u8 : Z -> Z := wrap 8.

(** The all-ones and all-zeros masks. *)
Definition MASK_ONES : Z := 2 ^ RISTRETTO_WORD_BITS - 1.
Definition MASK_ZERO : Z := 0.

(** ** The public header: success tags *)

Inductive ristretto_error_t : Set :=
| RISTRETTO_SUCCESS
| RISTRETTO_FAILURE.

(** The enumerators' values: [RISTRETTO_SUCCESS = -1], [RISTRETTO_FAILURE = 0]. *)
Definition error_value (e : ristretto_error_t) : Z :=
  match e with
  | RISTRETTO_SUCCESS => -1
  | RISTRETTO_FAILURE => 0
  end.

(** [ristretto_successful]:
    [w = ((word)e) ^ ((word)RISTRETTO_SUCCESS); return (w-1) >> WORD_BITS]. *)
Definition ristretto_successful (e : ristretto_error_t) : Z :=
  let w := u128 (Z.lxor (u64 (error_value e)) (u64 (error_value RISTRETTO_SUCCESS))) in
  u64 (Z.shiftr (u128 (w - 1)) RISTRETTO_WORD_BITS).

(** [ristretto_succeed_if]: the cast of a 64-bit mask to the enum, a 4-byte
    integer, keeps the low 32 bits; the result names an enumerator when
    that integer is -1 or 0. *)
Definition ristretto_succeed_if (x : Z) : option ristretto_error_t :=
  let e := swrap 32 (u64 x) in
  if e =? error_value RISTRETTO_SUCCESS then Some RISTRETTO_SUCCESS
  else if e =? error_value RISTRETTO_FAILURE then Some RISTRETTO_FAILURE
  else None.

(** ** Field elements *)

Definition RISTRETTO255_FIELD_LIMBS : nat := 5.
Definition RISTRETTO255_SER_BYTES : nat := 32.
Definition SER_BYTES : nat := RISTRETTO255_SER_BYTES.

(** [gf_25519_t]: a struct holding the array [limb] of five words. *)
Definition gf_25519_t : Type := list Z.

(** [a->limb[i]]. *)
Definition limb (a : gf_25519_t) (i : nat) : Z := nth i a 0.

(** [a->limb[i] = v]. *)
Fixpoint set_limb (a : gf_25519_t) (i : nat) (v : Z) : gf_25519_t :=
  match a, i with
  | [], _ => []
  | _ :: t, O => v :: t
  | h :: t, S i' => h :: set_limb t i' v
  end.

(** A well-formed element: five limbs, each a 64-bit word. *)
Definition gf_wf (a : gf_25519_t) : Prop :=
  length a = RISTRETTO255_FIELD_LIMBS /\ Forall (fun l => 0 <= l < 2 ^ 64) a.

(** [LIMB_PLACE_VALUE(i)] is 51 for every limb. *)
Definition LIMB_PLACE_VALUE (i : nat) : Z := 51.

(** Modelled from the spec: the macro [LIMB_MASK] of field.h, the mask of
    the low [LIMB_PLACE_VALUE(i)] bits of a limb. *)
Definition LIMB_MASK (i : nat) : Z := u64 (Z.shiftl 1 (LIMB_PLACE_VALUE i) - 1).

(** Modelled from the spec: the macro [LIMBPERM] of the back-end, the limb
    permutation of the wire format; this back-end stores limbs in order. *)
Definition LIMBPERM (i : nat) : nat := i.

(** Modelled from the spec: [word_is_zero] of the word operations, which is
    all-ones on the zero word and all-zeros elsewhere, computed without a
    branch through a double word as in [ristretto_successful]. *)
Definition word_is_zero (x : Z) : Z :=
  u64 (Z.shiftr (u128 (u128 (u64 x) - 1)) RISTRETTO_WORD_BITS).

(** Modelled from the spec: [gf_copy] of field.h, a plain copy. *)
Definition gf_copy (x : gf_25519_t) : gf_25519_t := x.

(** The represented integer: limb [i] has weight [2^(51 i)]. *)
Fixpoint gf_value (a : gf_25519_t) : Z :=
  match a with
  | [] => 0
  | l :: t => l + 2 ^ 51 * gf_value t
  end.

(** The field modulus. *)
Definition P25519 : Z := 2 ^ 255 - 19.

(** Weakly reduced: every limb below [2^(place+1)]. *)
Definition gf_weak (a : gf_25519_t) : Prop :=
  length a = RISTRETTO255_FIELD_LIMBS /\ Forall (fun l => 0 <= l < 2 ^ 52) a.

(** Canonical: every limb below [2^place] and the value below p. *)
Definition gf_canonical (a : gf_25519_t) : Prop :=
  length a = RISTRETTO255_FIELD_LIMBS /\ Forall (fun l => 0 <= l < 2 ^ 51) a
  /\ 0 <= gf_value a < P25519.

(** ** f_impl.h *)

Definition gf_add_RAW (a b : gf_25519_t) : gf_25519_t :=
  map (fun i => u64 (limb a i + limb b i)) (seq 0 5).

Definition gf_sub_RAW (a b : gf_25519_t) : gf_25519_t :=
  map (fun i => u64 (limb a i - limb b i)) (seq 0 5).

(** [amt] is an [int]; the products [38*amt] and [2*amt] are computed in
    [int] and converted to uint64_t by the subtraction. *)
Definition gf_bias (a : gf_25519_t) (amt : Z) : gf_25519_t :=
  let a := set_limb a 0
    (u64 (limb a 0 + u64 (u64 (Z.shiftl (u64 amt) 52) - s32 (38 * amt)))) in
  fold_left (fun a i =>
    set_limb a i (u64 (limb a i + u64 (u64 (Z.shiftl (u64 amt) 52) - s32 (2 * amt)))))
    (seq 1 4) a.

Definition gf_weak_reduce (a : gf_25519_t) : gf_25519_t :=
  let mask := u64 (Z.shiftl 1 51 - 1) in
  let tmp := Z.shiftr (limb a 4) 51 in
  let a := fold_left (fun a i =>
    set_limb a i (u64 (Z.land (limb a i) mask + Z.shiftr (limb a (i - 1)) 51)))
    [4; 3; 2; 1]%nat a in
  set_limb a 0 (u64 (Z.land (limb a 0) mask + u64 (tmp * 19))).

Definition MODULUS : gf_25519_t :=
  [0x7ffffffffffed; 0x7ffffffffffff; 0x7ffffffffffff; 0x7ffffffffffff; 0x7ffffffffffff].

Definition SQRT_MINUS_ONE : gf_25519_t :=
  [0x61b274a0ea0b0; 0x0d5a5fc8f189d; 0x7ef5e9cbd0c60; 0x78595a6804c9e; 0x2b8324804fc1d].

(** The first loop of [gf_strong_reduce]: subtract the modulus, with a
    signed double-word carry. *)
Definition strong_reduce_sub (a : gf_25519_t) : gf_25519_t * Z :=
  fold_left (fun '(a, scarry) i =>
    let scarry := s128 (scarry + limb a (LIMBPERM i) - limb MODULUS (LIMBPERM i)) in
    let a := set_limb a (LIMBPERM i) (u64 (Z.land scarry (LIMB_MASK (LIMBPERM i)))) in
    (a, Z.shiftr scarry (LIMB_PLACE_VALUE (LIMBPERM i))))
    (seq 0 RISTRETTO255_FIELD_LIMBS) (a, 0).

(** The second loop: add the modulus back under the mask [scarry_0]. *)
Definition strong_reduce_add (a : gf_25519_t) (scarry_0 : Z) : gf_25519_t * Z :=
  fold_left (fun '(a, carry) i =>
    let carry := u128 (carry + limb a (LIMBPERM i)
                       + Z.land scarry_0 (limb MODULUS (LIMBPERM i))) in
    let a := set_limb a (LIMBPERM i) (u64 (Z.land carry (LIMB_MASK (LIMBPERM i)))) in
    (a, Z.shiftr carry (LIMB_PLACE_VALUE (LIMBPERM i))))
    (seq 0 RISTRETTO255_FIELD_LIMBS) (a, 0).

Definition gf_strong_reduce (a : gf_25519_t) : gf_25519_t :=
  let a := gf_weak_reduce a in
  let '(a, scarry) := strong_reduce_sub a in
  let scarry_0 := u64 scarry in
  let '(a, carry) := strong_reduce_add a scarry_0 in
  a.

(** The two assertions of [gf_strong_reduce], as the values they test. *)
Definition gf_strong_reduce_asserts (a : gf_25519_t) : Z * Z :=
  let a := gf_weak_reduce a in
  let '(a, scarry) := strong_reduce_sub a in
  let scarry_0 := u64 scarry in
  let '(a, carry) := strong_reduce_add a scarry_0 in
  (Z.lor (word_is_zero scarry) (word_is_zero (scarry + 1)),
   word_is_zero (carry + scarry_0)).

Definition gf_sub (a b : gf_25519_t) : gf_25519_t :=
  let d := gf_sub_RAW a b in
  let d := gf_bias d 2 in
  gf_weak_reduce d.

Definition gf_add (a b : gf_25519_t) : gf_25519_t :=
  let d := gf_add_RAW a b in
  gf_weak_reduce d.

Definition gf_eq (a b : gf_25519_t) : Z :=
  let c := gf_sub a b in
  let c := gf_strong_reduce c in
  let ret := fold_left (fun ret i => Z.lor ret (limb c (LIMBPERM i)))
                       (seq 0 RISTRETTO255_FIELD_LIMBS) 0 in
  word_is_zero ret.

Definition gf_hibit (x : gf_25519_t) : Z :=
  let y := gf_add x x in
  let y := gf_strong_reduce y in
  u64 (- Z.land (limb y 0) 1).

Definition gf_lobit (x : gf_25519_t) : Z :=
  let y := gf_copy x in
  let y := gf_strong_reduce y in
  u64 (- Z.land (limb y 0) 1).

(** Every limb below [2^b]. *)
Definition limbs_below (b : Z) (a : gf_25519_t) : Prop :=
  length a = RISTRETTO255_FIELD_LIMBS /\ Forall (fun l => 0 <= l < 2 ^ b) a.

(** What [gf_bias] is meant to add to limb [i]: [amt * 2^52], less [38 * amt]
    on limb 0 and [2 * amt] on the others. *)
Definition bias_addend (amt : Z) (i : nat) : Z :=
  amt * 2 ^ 52 - match i with O => 38 | S _ => 2 end * amt.

(** The word [gf_bias] adds to limb [i], as the code computes it: the shift
    and the subtraction wrap at [2^64], the product is an [int]. *)
Definition bias_word (amt : Z) (i : nat) : Z :=
  u64 (u64 (Z.shiftl (u64 amt) 52) - s32 (match i with O => 38 | S _ => 2 end * amt)).

(** The spec's [is_zero]: strong-reduce, OR the limbs, test for zero. *)
Definition gf_is_zero (x : gf_25519_t) : Z :=
  let c := gf_strong_reduce x in
  word_is_zero (fold_left (fun ret i => Z.lor ret (limb c (LIMBPERM i)))
                          (seq 0 RISTRETTO255_FIELD_LIMBS) 0).

(** ** Wire format *)

(** The value of a [uint8_t]. *)
Definition byte_val (b : byte) : Z := Z.of_N (Byte.to_N b).

(** Conversion of an integer to [uint8_t]. *)
Definition byte_of (x : Z) : byte :=
  match Byte.of_N (Z.to_N (u8 x)) with
  | Some b => b
  | None => x00
  end.

(** The loop of [gf_serialize] over the [n] remaining bytes; [j] is the next
    limb, [fill] the number of bits held in [buffer]. *)
Fixpoint serialize_loop (n : nat) (red : gf_25519_t) (j : nat) (fill buffer : Z)
  : list byte :=
  match n with
  | O => []
  | S n' =>
    let '(j, fill, buffer) :=
      if (fill <? 8) && (j <? RISTRETTO255_FIELD_LIMBS)%nat
      then (S j,
            u32 (fill + LIMB_PLACE_VALUE (LIMBPERM j)),
            Z.lor buffer (u128 (Z.shiftl (u128 (limb red (LIMBPERM j))) fill)))
      else (j, fill, buffer) in
    byte_of buffer :: serialize_loop n' red j (u32 (fill - 8)) (Z.shiftr buffer 8)
  end.

(** [gf_serialize]: the bytes written.  The function asserts
    [gf_serialize_assert] first, so these are its output where that holds. *)
Definition gf_serialize (x : gf_25519_t) (with_hibit : Z) : list byte :=
  let red := gf_copy x in
  let red := gf_strong_reduce red in
  serialize_loop SER_BYTES red 0 0 0.

(** The assertion of [gf_serialize]: without the high bit, the reduced
    element has [gf_hibit] zero. *)
Definition gf_serialize_assert (x : gf_25519_t) (with_hibit : Z) : bool :=
  negb (with_hibit =? 0) || (gf_hibit (gf_strong_reduce (gf_copy x)) =? 0).

(** The inner [while] loop of [gf_deserialize] for limb [i]: take bytes
    while [fill] is short of the limb's place value and bytes remain.  Each
    turn advances [j], so [SER_BYTES] turns are enough. *)
Fixpoint deserialize_fill (fuel : nat) (i : nat) (serial : list byte) (hi_nmask : byte)
  (j : nat) (fill buffer : Z) : nat * Z * Z :=
  match fuel with
  | O => (j, fill, buffer)
  | S fuel' =>
    if (fill <? LIMB_PLACE_VALUE (LIMBPERM i)) && (j <? SER_BYTES)%nat then
      let sj := byte_val (nth j serial x00) in
      let sj := if (j =? SER_BYTES - 1)%nat
                then u8 (Z.land sj (Z.lnot (byte_val hi_nmask))) else sj in
      deserialize_fill fuel' i serial hi_nmask (S j) (u32 (fill + 8))
                       (Z.lor buffer (u128 (Z.shiftl sj fill)))
    else (j, fill, buffer)
  end.

(** The state of the outer loop: [x], [j], [fill], [buffer], [scarry]. *)
Definition deserialize_state : Type := gf_25519_t * nat * Z * Z * Z.

(** The body of the outer [for] loop of [gf_deserialize], for limb [i]. *)
Definition deserialize_body (serial : list byte) (hi_nmask : byte)
  (st : deserialize_state) (i : nat) : deserialize_state :=
  let '(x, j, fill, buffer, scarry) := st in
  let '(j, fill, buffer) := deserialize_fill SER_BYTES i serial hi_nmask j fill buffer in
  let x := set_limb x (LIMBPERM i)
    (u64 (if (i <? RISTRETTO255_FIELD_LIMBS - 1)%nat
          then Z.land buffer (LIMB_MASK (LIMBPERM i)) else buffer)) in
  let fill := u32 (fill - LIMB_PLACE_VALUE (LIMBPERM i)) in
  let buffer := Z.shiftr buffer (LIMB_PLACE_VALUE (LIMBPERM i)) in
  let scarry := Z.shiftr
    (s128 (scarry + limb x (LIMBPERM i) - limb MODULUS (LIMBPERM i)))
    (8 * 8) in
  (x, j, fill, buffer, scarry).

(** [gf_deserialize]: the element read and the success mask.  Every limb of
    [x] is written by the loop. *)
Definition gf_deserialize (serial : list byte) (with_hibit : Z) (hi_nmask : byte)
  : gf_25519_t * Z :=
  let '(x, j, fill, buffer, scarry) :=
    fold_left (deserialize_body serial hi_nmask)
              (seq 0 RISTRETTO255_FIELD_LIMBS) ([0; 0; 0; 0; 0], 0%nat, 0, 0, 0) in
  let succ := if with_hibit =? 0 then u64 (Z.lnot (gf_hibit x)) else u64 (- 1) in
  (x, Z.land (Z.land succ (word_is_zero buffer)) (u64 (Z.lnot (word_is_zero scarry)))).

(** The little-endian integer of a byte string. *)
Fixpoint le_value (l : list byte) : Z :=
  match l with
  | [] => 0
  | b :: t => byte_val b + 256 * le_value t
  end.

(** The little-endian integer of a 32-byte string whose last byte is masked
    by [~hi_nmask]. *)
Definition wire_value (serial : list byte) (hi_nmask : byte) : Z :=
  le_value (firstn 31 serial)
  + 2 ^ 248 * Z.land (byte_val (nth 31 serial x00)) (Z.lnot (byte_val hi_nmask)).

(** The byte [gf_deserialize] takes at index [j]: [serial[j]], masked by
    [~hi_nmask] at the last index. *)
Definition read_byte (serial : list byte) (hi_nmask : byte) (j : nat) : Z :=
  let sj := byte_val (nth j serial x00) in
  if (j =? SER_BYTES - 1)%nat
  then u8 (Z.land sj (Z.lnot (byte_val hi_nmask))) else sj.

(** The little-endian integer of the [n] bytes taken from index [j] on. *)
Fixpoint wire_tail (serial : list byte) (hi_nmask : byte) (n j : nat) : Z :=
  match n with
  | O => 0
  | S n' => read_byte serial hi_nmask j + 256 * wire_tail serial hi_nmask n' (S j)
  end.

(** ** Primality of the modulus

    The field laws used by [gf_isr] need [p = 2^255 - 19] to be prime.  A
    Pocklington certificate is checked by computation: a line [(N, a, qs)]
    gives distinct primes [qs] whose product [F] divides [N - 1] with
    [N < F * F], and a base [a] of order [N - 1] modulo [N] as far as each
    [q] in [qs] can tell. *)

(** Trial division: no divisor of [n] from [d] up to the square root. *)
Fixpoint no_divisor_from (fuel : nat) (d n : Z) : bool :=
  match fuel with
  | O => false
  | S fuel' =>
    if n <? d * d then true
    else if n mod d =? 0 then false
    else no_divisor_from fuel' (d + 1) n
  end.

(** Primes below [2^16] are recognised by trial division up to 256. *)
Definition small_prime (n : Z) : bool :=
  if (1 <? n) && (n <? 65536) then no_divisor_from 256 2 n else false.

Fixpoint distinct (l : list Z) : bool :=
  match l with
  | [] => true
  | a :: t => negb (existsb (Z.eqb a) t) && distinct t
  end.

Definition certificate_line : Type := Z * Z * list Z.

Definition line_number (c : certificate_line) : Z := fst (fst c).

Definition pocklington_check (known : list Z) (c : certificate_line) : bool :=
  let '(N, a, qs) := c in
  let F := fold_right Z.mul 1 qs in
  (1 <? N) && ((N - 1) mod F =? 0) && (N <? F * F) && distinct qs
  && forallb (fun q => if existsb (Z.eqb q) known then true else small_prime q) qs
  && (Zpow_mod a (N - 1) N =? 1)
  && forallb (fun q => Z.gcd (Zpow_mod a ((N - 1) / q) N - 1) N =? 1) qs.

Fixpoint check_certificate (known : list Z) (cs : list certificate_line) : bool :=
  match cs with
  | [] => true
  | c :: cs' =>
    pocklington_check known c && check_certificate (line_number c :: known) cs'
  end.

Definition P25519_certificate : list certificate_line :=
  [ (8574133, 2, [991; 103]);
    (1919519569386763, 2, [8574133; 127]);
    (569003, 2, [419; 97]);
    (2773320623, 2, [569003]);
    (72106336199, 2, [2773320623]);
    (75445702479781427272750846543864801, 2, [1919519569386763; 72106336199]);
    (430751, 2, [1723]);
    (31757755568855353, 2, [430751; 4153]);
    (74058212732561358302231226437062788676166966415465897661863160754340907, 2,
     [75445702479781427272750846543864801; 31757755568855353]);
    (57896044618658097711785492504343953926634992332820282019728792003956564819949, 2,
     [74058212732561358302231226437062788676166966415465897661863160754340907]) ].

(** ** Inverse square root *)

(** Modelled from the spec: the field constants [ZERO] and [ONE], declared
    in field.h. *)
Definition ZERO : gf_25519_t := [0; 0; 0; 0; 0].
Definition ONE : gf_25519_t := [1; 0; 0; 0; 0].

(** Modelled from the spec: [constant_time_select] of the word operations,
    [a = mask ? bTrue : bFalse] word by word, as mask-AND-OR. *)
Definition constant_time_select (bFalse bTrue : gf_25519_t) (mask : Z) : gf_25519_t :=
  map (fun i => Z.lor (Z.land mask (limb bTrue i))
                      (Z.land (u64 (Z.lnot mask)) (limb bFalse i)))
      (seq 0 RISTRETTO255_FIELD_LIMBS).

Section InverseSquareRoot.

(** The multiplication and squaring of the back-end, which this file
    takes as given. *)
Variable gf_mul : gf_25519_t -> gf_25519_t -> gf_25519_t.
Variable gf_sqr : gf_25519_t -> gf_25519_t.

(** Modelled from the spec: [gf_sqrn] of field.h, [n] squarings in a row. *)
Definition gf_sqrn (x : gf_25519_t) (n : nat) : gf_25519_t :=
  Nat.iter n gf_sqr x.

(** [gf_isr]: the element [a] and the mask returned. *)
Definition gf_isr (x : gf_25519_t) : gf_25519_t * Z :=
  let L0 := gf_sqr x in
  let L1 := gf_mul L0 x in
  let L0 := gf_sqr L1 in
  let L1 := gf_mul L0 x in
  let L0 := gf_sqrn L1 3 in
  let L2 := gf_mul L0 L1 in
  let L0 := gf_sqrn L2 6 in
  let L1 := gf_mul L2 L0 in
  let L2 := gf_sqr L1 in
  let L0 := gf_mul L2 x in
  let L2 := gf_sqrn L0 12 in
  let L0 := gf_mul L2 L1 in
  let L2 := gf_sqrn L0 25 in
  let L3 := gf_mul L2 L0 in
  let L2 := gf_sqrn L3 25 in
  let L1 := gf_mul L2 L0 in
  let L2 := gf_sqrn L1 50 in
  let L0 := gf_mul L2 L3 in
  let L2 := gf_sqrn L0 125 in
  let L3 := gf_mul L2 L0 in
  let L2 := gf_sqrn L3 2 in
  let L0 := gf_mul L2 x in
  let L2 := gf_sqr L0 in
  let L3 := gf_mul L2 x in
  let L1 := gf_add L3 ONE in
  let one := gf_eq L3 ONE in
  let succ := Z.lor one (gf_eq L1 ZERO) in
  let qr := Z.lor one (gf_eq L3 SQRT_MINUS_ONE) in
  let L2 := constant_time_select SQRT_MINUS_ONE ONE qr in
  let a := gf_mul L2 L0 in
  (a, succ).

(** What the field code relies on from the back-end: on weakly reduced
    inputs the result is weakly reduced and represents the product. *)
Definition gf_mul_contract : Prop :=
  forall a b, gf_weak a -> gf_weak b ->
    gf_weak (gf_mul a b) /\
    gf_value (gf_mul a b) mod P25519 = (gf_value a * gf_value b) mod P25519.

Definition gf_sqr_contract : Prop :=
  forall a, gf_weak a ->
    gf_weak (gf_sqr a) /\
    gf_value (gf_sqr a) mod P25519 = (gf_value a * gf_value a) mod P25519.

End InverseSquareRoot.

(** The canonical limbs of an integer. *)
Definition gf_of_value (v : Z) : gf_25519_t :=
  let v := v mod P25519 in
  map (fun i => (v / 2 ^ (51 * Z.of_nat i)) mod 2 ^ 51) (seq 0 RISTRETTO255_FIELD_LIMBS).

(** Modelled from the spec: a back-end multiplication and squaring, which
    return the canonical limbs of the product. *)
Definition gf_mul_ref (a b : gf_25519_t) : gf_25519_t :=
  gf_of_value (gf_value a * gf_value b).

Definition gf_sqr_ref (a : gf_25519_t) : gf_25519_t := gf_mul_ref a a.

(** [x] is a square modulo p. *)
Definition quadratic_residue (x : Z) : Prop :=
  exists y, (y * y) mod P25519 = x mod P25519.

(** [L] is weakly reduced and represents [v ^ e] modulo p. *)
Definition gf_power_of (L : gf_25519_t) (v e : Z) : Prop :=
  gf_weak L /\ gf_value L mod P25519 = v ^ e mod P25519.
(** * Properties *)

(** ** Word-level facts *)

Lemma u64_small x : 0 <= x < 2 ^ 64 -> u64 x = x.
Proof. intros; apply Z.mod_small; assumption. Qed.

Lemma u128_small x : 0 <= x < 2 ^ 128 -> u128 x = x.
Proof. intros; apply Z.mod_small; assumption. Qed.

Lemma s128_small x : - 2 ^ 127 <= x < 2 ^ 127 -> s128 x = x.
Proof.
  intros. unfold s128, swrap.
  change (2 * RISTRETTO_WORD_BITS - 1) with 127.
  change (2 * RISTRETTO_WORD_BITS) with 128.
  rewrite Z.mod_small; lia.
Qed.

Lemma s32_small x : - 2 ^ 31 <= x < 2 ^ 31 -> s32 x = x.
Proof. intros. unfold s32, swrap. change (32 - 1) with 31. rewrite Z.mod_small; lia. Qed.

Lemma u64_range x : 0 <= u64 x < 2 ^ 64.
Proof. apply Z.mod_pos_bound; lia. Qed.

Lemma land_mask51 x : Z.land x (u64 (Z.shiftl 1 51 - 1)) = x mod 2 ^ 51.
Proof. change (u64 (Z.shiftl 1 51 - 1)) with (Z.ones 51). apply Z.land_ones; lia. Qed.

Lemma shiftr51 x : Z.shiftr x 51 = x / 2 ^ 51.
Proof. apply Z.shiftr_div_pow2; lia. Qed.

Lemma land_ones64 m : 0 <= m < 2 ^ 64 -> Z.land (u64 (-1)) m = m.
Proof.
  intros. change (u64 (-1)) with (Z.ones 64).
  rewrite Z.land_comm, Z.land_ones by lia. apply Z.mod_small; lia.
Qed.

Lemma mod_sub_multiple a b k m : a = b + k * m -> a mod m = b mod m.
Proof. intros ->. apply Z_mod_plus_full. Qed.

(** [word_is_zero] is the all-ones mask on the zero word, else all-zeros. *)
Lemma word_is_zero_spec x :
  word_is_zero x = if u64 x =? 0 then MASK_ONES else MASK_ZERO.
Proof.
  unfold word_is_zero. pose proof (u64_range x) as Hx.
  set (w := u64 x) in *. clearbody w.
  change RISTRETTO_WORD_BITS with 64.
  rewrite (u128_small w) by lia.
  destruct (Z.eqb_spec w 0) as [->|Hw].
  - reflexivity.
  - rewrite u128_small by lia. rewrite Z.shiftr_div_pow2 by lia.
    rewrite Z.div_small by lia. reflexivity.
Qed.

Lemma lor_below n x y :
  0 <= n -> 0 <= x < 2 ^ n -> 0 <= y < 2 ^ n -> 0 <= Z.lor x y < 2 ^ n.
Proof.
  intros Hn Hx Hy.
  assert (H0 : 0 <= Z.lor x y) by (apply Z.lor_nonneg; lia).
  split; [exact H0|].
  assert (0 < 2 ^ n) by (apply Z.pow_pos_nonneg; lia).
  destruct (Z.eq_dec (Z.lor x y) 0) as [E|Hz]; [rewrite E; lia|].
  assert (n <> 0).
  { intros ->. change (2 ^ 0) with 1 in *.
    assert (x = 0) by lia. assert (y = 0) by lia. subst. apply Hz. reflexivity. }
  apply Z.log2_lt_pow2; [lia|].
  rewrite Z.log2_lor by lia.
  apply Z.max_lub_lt.
  - destruct (Z.eq_dec x 0) as [->|]; [simpl; lia|]. apply Z.log2_lt_pow2; lia.
  - destruct (Z.eq_dec y 0) as [->|]; [simpl; lia|]. apply Z.log2_lt_pow2; lia.
Qed.

(** ** Tactics for the limb loops *)

(** Split a five-limb element into its limbs, with their bounds. *)
Ltac gf_destruct a H :=
  let Hl := fresh "Hlen" in let Hf := fresh "Hall" in
  destruct H as [Hl Hf];
  do 5 (destruct a as [|? a]; [discriminate Hl|]);
  destruct a; [|discriminate Hl]; clear Hl;
  repeat match goal with
  | H : Forall _ (_ :: _) |- _ => apply Forall_cons_iff in H; destruct H as [? H]
  | H : Forall _ [] |- _ => clear H
  end.

(** Name the quotient and remainder of [z] by [2^51]. *)
Ltac split51 z :=
  let q := fresh "q" in let r := fresh "r" in
  pose proof (Z.div_mod z (2 ^ 51) ltac:(lia));
  pose proof (Z.mod_pos_bound z (2 ^ 51) ltac:(lia));
  set (q := z / 2 ^ 51) in *; set (r := z mod 2 ^ 51) in *;
  clearbody q r.

Ltac pure_term x :=
  lazymatch x with
  | context [_ / _] => fail | context [_ mod _] => fail
  | context [u64 _] => fail | context [u128 _] => fail | context [s128 _] => fail
  | context [Z.land _ _] => fail
  | _ => idtac end.

Ltac split51_one :=
  match goal with
  | |- context [?x mod 2 ^ 51] => pure_term x; split51 x
  | |- context [?x / 2 ^ 51] => pure_term x; split51 x
  end.

Ltac unwrap_one :=
  match goal with
  | |- context [u64 ?x] => pure_term x; rewrite (u64_small x) by lia
  | |- context [u128 ?x] => pure_term x; rewrite (u128_small x) by lia
  | |- context [s128 ?x] => pure_term x; rewrite (s128_small x) by lia
  end.

(** Follow a carry chain from the innermost limb outwards. *)
Ltac carry_chain := repeat first [unwrap_one | split51_one].

Ltac loops_unfold :=
  unfold strong_reduce_sub, strong_reduce_add, LIMB_MASK;
  cbn [fold_left seq map RISTRETTO255_FIELD_LIMBS set_limb limb nth LIMBPERM
       LIMB_PLACE_VALUE MODULUS gf_value fst snd Nat.sub] in *.

Ltac limbs_solve := split; [reflexivity | repeat constructor; lia].

(** ** Elements and their values *)

Lemma limbs_below_value a :
  limbs_below 51 a -> 0 <= gf_value a < 2 ^ 255.
Proof. intros H. gf_destruct a H. cbn [gf_value]. lia. Qed.

Lemma limbs_below_wf b a : 0 <= b <= 64 -> limbs_below b a -> gf_wf a.
Proof.
  intros Hb [Hl Hf]. split; [exact Hl|].
  eapply Forall_impl; [|exact Hf]. cbv beta. intros l Hlb.
  assert (2 ^ b <= 2 ^ 64) by (apply Z.pow_le_mono_r; lia). lia.
Qed.

Lemma gf_weak_wf a : gf_weak a -> gf_wf a.
Proof. apply (limbs_below_wf 52); lia. Qed.

(** Limbs below [2^51] are the base-[2^51] digits of the value, so the value
    determines them. *)
Lemma limbs_below_inj a b :
  limbs_below 51 a -> limbs_below 51 b -> gf_value a = gf_value b -> a = b.
Proof.
  intros Ha Hb. gf_destruct a Ha. gf_destruct b Hb. cbn [gf_value]. intros E.
  assert (z = z4) by lia. subst.
  assert (z0 = z5) by lia. subst.
  assert (z1 = z6) by lia. subst.
  assert (z2 = z7) by lia. subst.
  assert (z3 = z8) by lia. subst. reflexivity.
Qed.

Lemma limbs_below_zero a :
  limbs_below 51 a -> gf_value a = 0 -> a = [0; 0; 0; 0; 0].
Proof.
  intros Ha E. apply limbs_below_inj; [exact Ha | limbs_solve | exact E].
Qed.

(** ** Weak reduction *)

Lemma gf_weak_reduce_facts a :
  gf_wf a ->
  gf_weak (gf_weak_reduce a) /\
  gf_value (gf_weak_reduce a)
    = gf_value a - (limb a 4 / 2 ^ 51) * 2 ^ 255 + 19 * (limb a 4 / 2 ^ 51) /\
  limb (gf_weak_reduce a) 0 = limb a 0 mod 2 ^ 51 + 19 * (limb a 4 / 2 ^ 51) /\
  0 <= gf_value (gf_weak_reduce a) < 2 * P25519.
Proof.
  intros H. gf_destruct a H. unfold gf_weak_reduce. loops_unfold.
  rewrite !land_mask51, !shiftr51. unfold P25519.
  carry_chain.
  split; [limbs_solve | repeat split; lia].
Qed.

Lemma gf_weak_reduce_mod a :
  gf_wf a -> gf_value (gf_weak_reduce a) mod P25519 = gf_value a mod P25519.
Proof.
  intros H. destruct (gf_weak_reduce_facts a H) as [_ [Hv _]].
  apply mod_sub_multiple with (k := - (limb a 4 / 2 ^ 51)).
  rewrite Hv. unfold P25519. lia.
Qed.

(** C4: [gf_weak_reduce] keeps the residue modulo p, folding the bits of
    limb 4 at and above position 2^255 into limb 0 with the factor 19, and
    leaves every limb below [2^(LIMB_PLACE_VALUE + 1) = 2^52], for arbitrary
    64-bit input limbs. *)
Theorem gf_weak_reduce_spec a :
  gf_wf a ->
  gf_value (gf_weak_reduce a) mod P25519 = gf_value a mod P25519 /\
  gf_value (gf_weak_reduce a)
    = gf_value a - (limb a 4 / 2 ^ 51) * 2 ^ 255 + 19 * (limb a 4 / 2 ^ 51) /\
  limb (gf_weak_reduce a) 0 = limb a 0 mod 2 ^ 51 + 19 * (limb a 4 / 2 ^ 51) /\
  length (gf_weak_reduce a) = RISTRETTO255_FIELD_LIMBS /\
  (forall i, (i < RISTRETTO255_FIELD_LIMBS)%nat ->
     0 <= limb (gf_weak_reduce a) i < 2 ^ (LIMB_PLACE_VALUE i + 1)).
Proof.
  intros H. destruct (gf_weak_reduce_facts a H) as [[Hl Hf] [Hv [H0 _]]].
  repeat split; try assumption.
  - apply gf_weak_reduce_mod. exact H.
  - eapply (proj1 (Forall_nth _ _) Hf). rewrite Hl. assumption.
  - eapply (proj1 (Forall_nth _ _) Hf). rewrite Hl. assumption.
Qed.

Lemma gf_weak_reduce_spec_witness :
  gf_value (gf_weak_reduce [2 ^ 64 - 1; 2 ^ 64 - 1; 2 ^ 64 - 1; 2 ^ 64 - 1; 2 ^ 64 - 1])
    mod P25519
  = gf_value [2 ^ 64 - 1; 2 ^ 64 - 1; 2 ^ 64 - 1; 2 ^ 64 - 1; 2 ^ 64 - 1] mod P25519.
Proof.
  apply (gf_weak_reduce_spec [2 ^ 64 - 1; 2 ^ 64 - 1; 2 ^ 64 - 1; 2 ^ 64 - 1; 2 ^ 64 - 1]).
  split; [reflexivity | repeat constructor; cbv; congruence].
Defined.

(** ** Bias *)

Lemma u64_sub_idemp x y : u64 (u64 x - y) = u64 (x - y).
Proof. apply Zminus_mod_idemp_l. Qed.

Lemma gf_bias_limbs a amt :
  gf_wf a -> 0 <= amt ->
  (forall i, (i < RISTRETTO255_FIELD_LIMBS)%nat -> limb a i + bias_addend amt i < 2 ^ 64) ->
  gf_bias a amt = map (fun i => limb a i + bias_addend amt i) (seq 0 5).
Proof.
  intros H Hamt Hfit.
  pose proof (Hfit 0%nat ltac:(cbv; lia)) as F0.
  pose proof (Hfit 1%nat ltac:(cbv; lia)) as F1.
  pose proof (Hfit 2%nat ltac:(cbv; lia)) as F2.
  pose proof (Hfit 3%nat ltac:(cbv; lia)) as F3.
  pose proof (Hfit 4%nat ltac:(cbv; lia)) as F4.
  clear Hfit. gf_destruct a H. unfold gf_bias. loops_unfold.
  unfold bias_addend in *. cbn [limb nth] in *.
  assert (amt <= 4096) by lia.
  rewrite (u64_small amt) by lia.
  rewrite Z.shiftl_mul_pow2 by lia.
  rewrite !u64_sub_idemp.
  rewrite !s32_small by lia.
  repeat match goal with
  | |- context [u64 ?x] => pure_term x; rewrite (u64_small x) by lia
  end.
  reflexivity.
Qed.

Lemma gf_bias_ideal a amt :
  gf_wf a -> 0 <= amt ->
  (forall i, (i < RISTRETTO255_FIELD_LIMBS)%nat -> limb a i + bias_addend amt i < 2 ^ 64) ->
  gf_value (gf_bias a amt) = gf_value a + amt * (2 ^ 256 - 38) /\
  amt * (2 ^ 256 - 38) = 2 * amt * P25519 /\
  gf_value (gf_bias a amt) mod P25519 = gf_value a mod P25519.
Proof.
  intros H Hamt Hfit.
  assert (Hv : gf_value (gf_bias a amt) = gf_value a + amt * (2 ^ 256 - 38)).
  { rewrite (gf_bias_limbs a amt H Hamt Hfit). gf_destruct a H.
    loops_unfold. unfold bias_addend. lia. }
  split; [exact Hv|]. split; [unfold P25519; lia|].
  apply mod_sub_multiple with (k := 2 * amt). rewrite Hv. unfold P25519. lia.
Qed.

(** Up to 4096 the word added to a limb is the bias itself: neither the
    shift nor the subtraction wraps. *)
Lemma bias_word_exact amt i : 0 <= amt <= 4096 -> bias_word amt i = bias_addend amt i.
Proof.
  intros Hamt. unfold bias_word, bias_addend.
  rewrite (u64_small amt) by lia.
  rewrite Z.shiftl_mul_pow2 by lia.
  rewrite u64_sub_idemp.
  destruct i as [|i]; rewrite s32_small by lia; apply u64_small; lia.
Qed.

(** The claim C9 as stated fails: at [amt = 4097] the shift [amt << 52] is
    truncated to 64 bits, so on the zero element none of the five additions
    overflows and yet the value rises by less than [amt * (2^256 - 38)] and
    the residue changes. *)
Lemma gf_bias_shift_counterexample :
  ~ (forall a amt,
       gf_wf a -> 0 <= amt ->
       (forall i, (i < RISTRETTO255_FIELD_LIMBS)%nat ->
          limb a i + bias_word amt i < 2 ^ 64) ->
       gf_value (gf_bias a amt) = gf_value a + amt * (2 ^ 256 - 38))
  /\
  ~ (forall a amt,
       gf_wf a -> 0 <= amt ->
       (forall i, (i < RISTRETTO255_FIELD_LIMBS)%nat ->
          limb a i + bias_word amt i < 2 ^ 64) ->
       gf_value (gf_bias a amt) mod P25519 = gf_value a mod P25519).
Proof.
  assert (Hwf : gf_wf [0; 0; 0; 0; 0])
    by (split; [reflexivity | repeat constructor; cbv; congruence]).
  assert (Hfit : forall i, (i < RISTRETTO255_FIELD_LIMBS)%nat ->
            limb [0; 0; 0; 0; 0] i + bias_word 4097 i < 2 ^ 64).
  { intros i Hi. do 5 (destruct i as [|i]; [vm_compute; reflexivity|]).
    cbv in Hi. lia. }
  split; intros H; specialize (H [0; 0; 0; 0; 0] 4097 Hwf ltac:(lia) Hfit);
    vm_compute in H; discriminate H.
Qed.

(** C9, amended: for [0 <= amt <= 4096], where the bias words
    [(amt << 52) - 38 amt] and [(amt << 52) - 2 amt] are computed without
    truncation, and when none of the five limb additions overflows [2^64],
    [gf_bias a amt] raises the represented integer by exactly
    [amt * (2^256 - 38)], which is [2 * amt * p], so the residue modulo p is
    unchanged. *)
Theorem gf_bias_value a amt :
  gf_wf a -> 0 <= amt <= 4096 ->
  (forall i, (i < RISTRETTO255_FIELD_LIMBS)%nat -> limb a i + bias_word amt i < 2 ^ 64) ->
  gf_value (gf_bias a amt) = gf_value a + amt * (2 ^ 256 - 38) /\
  amt * (2 ^ 256 - 38) = 2 * amt * P25519 /\
  gf_value (gf_bias a amt) mod P25519 = gf_value a mod P25519.
Proof.
  intros H Hamt Hfit. apply gf_bias_ideal; [exact H | lia|].
  intros i Hi. rewrite <- (bias_word_exact amt i Hamt). apply Hfit. exact Hi.
Qed.

Lemma gf_bias_value_witness :
  gf_value (gf_bias [1; 2; 3; 4; 5] 4096)
  = gf_value [1; 2; 3; 4; 5] + 4096 * (2 ^ 256 - 38).
Proof.
  apply (gf_bias_value [1; 2; 3; 4; 5] 4096).
  - split; [reflexivity | repeat constructor; cbv; congruence].
  - lia.
  - intros i Hi. do 5 (destruct i as [|i]; [vm_compute; reflexivity|]).
    cbv in Hi. lia.
Defined.

(** ** Subtraction and addition *)

Lemma gf_sub_RAW_bias a b :
  gf_weak a -> gf_weak b ->
  gf_bias (gf_sub_RAW a b) 2
  = map (fun i => limb a i + bias_addend 2 i - limb b i) (seq 0 5).
Proof.
  intros Ha Hb. gf_destruct a Ha. gf_destruct b Hb.
  unfold gf_bias, gf_sub_RAW. loops_unfold. unfold bias_addend.
  change (u64 2) with 2. change (Z.shiftl 2 52) with (2 * 2 ^ 52).
  change (s32 (38 * 2)) with 76. change (s32 (2 * 2)) with 4.
  change (u64 (u64 (2 * 2 ^ 52) - 76)) with (2 * 2 ^ 52 - 38 * 2).
  change (u64 (u64 (2 * 2 ^ 52) - 4)) with (2 * 2 ^ 52 - 2 * 2).
  unfold u64, wrap. change RISTRETTO_WORD_BITS with 64.
  rewrite !Zplus_mod_idemp_l.
  rewrite !Z.mod_small by lia.
  repeat (f_equal; try lia).
Qed.

Lemma gf_sub_facts a b :
  gf_weak a -> gf_weak b ->
  (forall i, (i < RISTRETTO255_FIELD_LIMBS)%nat ->
     0 <= limb a i + bias_addend 2 i - limb b i < 2 ^ 64) /\
  gf_value (gf_sub a b) mod P25519 = (gf_value a - gf_value b) mod P25519 /\
  gf_weak (gf_sub a b).
Proof.
  intros Ha Hb. pose proof (gf_sub_RAW_bias a b Ha Hb) as E.
  assert (Hlimbs : forall i, (i < RISTRETTO255_FIELD_LIMBS)%nat ->
            0 <= limb a i + bias_addend 2 i - limb b i < 2 ^ 64).
  { gf_destruct a Ha. gf_destruct b Hb. intros i Hi.
    do 5 (destruct i as [|i]; [unfold bias_addend; cbn [limb nth]; lia|]).
    cbv in Hi. lia. }
  assert (Hwf : gf_wf (gf_bias (gf_sub_RAW a b) 2)).
  { rewrite E. split; [reflexivity|].
    cbn [map seq]. repeat constructor; apply Hlimbs; cbv; lia. }
  split; [exact Hlimbs|].
  unfold gf_sub. split; [|apply gf_weak_reduce_facts; exact Hwf].
  rewrite gf_weak_reduce_mod by exact Hwf.
  rewrite E. gf_destruct a Ha. gf_destruct b Hb.
  loops_unfold. unfold bias_addend.
  apply mod_sub_multiple with (k := 4). unfold P25519. lia.
Qed.

Lemma gf_sub_mod a b :
  gf_weak a -> gf_weak b ->
  gf_value (gf_sub a b) mod P25519 = (gf_value a - gf_value b) mod P25519.
Proof. intros Ha Hb. apply (gf_sub_facts a b Ha Hb). Qed.

Lemma gf_sub_weak a b : gf_weak a -> gf_weak b -> gf_weak (gf_sub a b).
Proof. intros Ha Hb. apply (gf_sub_facts a b Ha Hb). Qed.

(** C5: on weakly reduced [a] and [b], [gf_sub] subtracts limb by limb and
    biases by the multiple [2 * (2^256 - 38)] of p, so that every limb holds
    the non-negative integer [a_i + bias_i - b_i]; the result is congruent to
    [a - b] modulo p and has every limb below [2^52]. *)
Theorem gf_sub_spec a b :
  gf_weak a -> gf_weak b ->
  gf_bias (gf_sub_RAW a b) 2
    = map (fun i => limb a i + bias_addend 2 i - limb b i) (seq 0 5) /\
  (forall i, (i < RISTRETTO255_FIELD_LIMBS)%nat ->
     0 <= limb a i + bias_addend 2 i - limb b i < 2 ^ 64) /\
  gf_value (gf_sub a b) mod P25519 = (gf_value a - gf_value b) mod P25519 /\
  gf_weak (gf_sub a b).
Proof.
  intros Ha Hb. split; [apply gf_sub_RAW_bias; assumption|].
  apply gf_sub_facts; assumption.
Qed.

Lemma gf_sub_spec_witness :
  gf_value (gf_sub [1; 0; 0; 0; 0] [2; 0; 0; 0; 0]) mod P25519 = (1 - 2) mod P25519.
Proof.
  apply (gf_sub_spec [1; 0; 0; 0; 0] [2; 0; 0; 0; 0]);
    (split; [reflexivity | repeat constructor; cbv; congruence]).
Defined.

Lemma gf_add_spec a b :
  gf_weak a -> gf_weak b ->
  gf_value (gf_add a b) mod P25519 = (gf_value a + gf_value b) mod P25519 /\
  gf_weak (gf_add a b).
Proof.
  intros Ha Hb.
  assert (E : gf_add_RAW a b = map (fun i => limb a i + limb b i) (seq 0 5)
              /\ gf_wf (gf_add_RAW a b)
              /\ gf_value (gf_add_RAW a b) = gf_value a + gf_value b).
  { gf_destruct a Ha. gf_destruct b Hb. unfold gf_add_RAW. loops_unfold.
    rewrite !u64_small by lia.
    split; [reflexivity|]. split; [limbs_solve | lia]. }
  destruct E as [_ [Hwf Hv]]. unfold gf_add.
  split; [|apply gf_weak_reduce_facts; exact Hwf].
  rewrite gf_weak_reduce_mod by exact Hwf. rewrite Hv. reflexivity.
Qed.

(** ** Strong reduction *)

Lemma strong_reduce_sub_spec w :
  gf_wf w -> gf_value w < 2 * P25519 ->
  let r := fst (strong_reduce_sub w) in
  let c := snd (strong_reduce_sub w) in
  limbs_below 51 r /\ (c = -1 \/ c = 0) /\
  gf_value r + 2 ^ 255 * c = gf_value w - P25519.
Proof.
  intros H HV. gf_destruct w H. loops_unfold.
  rewrite !land_mask51, !shiftr51. unfold P25519 in *.
  carry_chain.
  split; [limbs_solve | split; lia].
Qed.

Lemma strong_reduce_add_spec r c :
  limbs_below 51 r -> c = -1 \/ c = 0 ->
  let r' := fst (strong_reduce_add r (u64 c)) in
  let carry := snd (strong_reduce_add r (u64 c)) in
  limbs_below 51 r' /\
  gf_value r' + 2 ^ 255 * carry = gf_value r - c * P25519 /\
  0 <= carry <= 1.
Proof.
  intros H Hc. gf_destruct r H. loops_unfold. unfold P25519.
  destruct Hc; subst c.
  - rewrite !land_ones64 by lia.
    rewrite !land_mask51, !shiftr51.
    carry_chain.
    split; [limbs_solve | split; lia].
  - change (u64 0) with 0. rewrite !Z.land_0_l.
    rewrite !land_mask51, !shiftr51.
    carry_chain.
    split; [limbs_solve | split; lia].
Qed.

Lemma gf_strong_reduce_unfold a :
  let w := gf_weak_reduce a in
  let s := strong_reduce_sub w in
  let t := strong_reduce_add (fst s) (u64 (snd s)) in
  gf_strong_reduce a = fst t /\
  gf_strong_reduce_asserts a
  = (Z.lor (word_is_zero (snd s)) (word_is_zero (snd s + 1)),
     word_is_zero (snd t + u64 (snd s))).
Proof.
  unfold gf_strong_reduce, gf_strong_reduce_asserts. cbv zeta.
  destruct (strong_reduce_sub (gf_weak_reduce a)) as [r c]. cbn [fst snd].
  destruct (strong_reduce_add r (u64 c)) as [r' c']. cbn [fst snd].
  split; reflexivity.
Qed.

Lemma gf_strong_reduce_facts a :
  gf_wf a ->
  limbs_below 51 (gf_strong_reduce a) /\
  gf_value (gf_strong_reduce a) = gf_value a mod P25519 /\
  gf_strong_reduce_asserts a = (MASK_ONES, MASK_ONES).
Proof.
  intros H.
  destruct (gf_weak_reduce_facts a H) as [Hw [_ [_ Hlt]]].
  pose proof (gf_weak_reduce_mod a H) as Hmod.
  apply gf_weak_wf in Hw.
  destruct (gf_strong_reduce_unfold a) as [-> ->].
  pose proof (strong_reduce_sub_spec _ Hw (proj2 Hlt)) as S.
  set (w := gf_weak_reduce a) in *.
  destruct (strong_reduce_sub w) as [r c]. cbn [fst snd] in *.
  destruct S as [Hr [Hc Hs]].
  pose proof (strong_reduce_add_spec r c Hr Hc) as A.
  destruct (strong_reduce_add r (u64 c)) as [r' c']. cbn [fst snd] in *.
  destruct A as [Hr' [Ha Hc']].
  pose proof (limbs_below_value r Hr) as Br.
  pose proof (limbs_below_value r' Hr') as Br'.
  rewrite <- Hmod. unfold P25519 in *.
  split; [exact Hr'|].
  destruct Hc; subst c.
  - assert (c' = 1) by lia. subst c'.
    split; [|reflexivity].
    assert (E : gf_value r' = gf_value w) by lia. rewrite E.
    symmetry. apply Z.mod_small. lia.
  - assert (c' = 0) by lia. subst c'.
    split; [|reflexivity].
    apply Z.mod_unique with (q := 1); lia.
Qed.

(** C2: for arbitrary 64-bit limbs, [gf_strong_reduce] leaves the canonical
    representative: limbs below [2^51], value in [0, p) and congruent to the
    input modulo p (the value is the input's remainder modulo p). *)
Theorem gf_strong_reduce_spec a :
  gf_wf a ->
  gf_canonical (gf_strong_reduce a) /\
  gf_value (gf_strong_reduce a) mod P25519 = gf_value a mod P25519 /\
  gf_value (gf_strong_reduce a) = gf_value a mod P25519.
Proof.
  intros H. destruct (gf_strong_reduce_facts a H) as [[Hl Hf] [Hv _]].
  assert (0 <= gf_value a mod P25519 < P25519)
    by (apply Z.mod_pos_bound; unfold P25519; lia).
  split; [|split].
  - split; [exact Hl|]. split; [exact Hf|]. rewrite Hv. assumption.
  - rewrite Hv. apply Z.mod_mod. unfold P25519. lia.
  - exact Hv.
Qed.

Lemma gf_strong_reduce_spec_witness :
  gf_value (gf_strong_reduce [2 ^ 64 - 1; 2 ^ 64 - 1; 2 ^ 64 - 1; 2 ^ 64 - 1; 2 ^ 64 - 1])
  = gf_value [2 ^ 64 - 1; 2 ^ 64 - 1; 2 ^ 64 - 1; 2 ^ 64 - 1; 2 ^ 64 - 1] mod P25519.
Proof.
  apply (gf_strong_reduce_spec [2 ^ 64 - 1; 2 ^ 64 - 1; 2 ^ 64 - 1; 2 ^ 64 - 1; 2 ^ 64 - 1]).
  split; [reflexivity | repeat constructor; cbv; congruence].
Defined.

(** ** Predicates *)

Lemma or_limbs_zero c :
  limbs_below 51 c ->
  word_is_zero (fold_left (fun ret i => Z.lor ret (limb c (LIMBPERM i)))
                          (seq 0 RISTRETTO255_FIELD_LIMBS) 0)
  = if gf_value c =? 0 then MASK_ONES else MASK_ZERO.
Proof.
  intros H. gf_destruct c H. loops_unfold. rewrite word_is_zero_spec.
  rewrite Z.lor_0_l.
  pose proof (lor_below 51 z z0 ltac:(lia) ltac:(lia) ltac:(lia)) as B0.
  pose proof (lor_below 51 _ z1 ltac:(lia) B0 ltac:(lia)) as B1.
  pose proof (lor_below 51 _ z2 ltac:(lia) B1 ltac:(lia)) as B2.
  pose proof (lor_below 51 _ z3 ltac:(lia) B2 ltac:(lia)) as B3.
  rewrite u64_small by lia.
  destruct (Z.eqb_spec (Z.lor (Z.lor (Z.lor (Z.lor z z0) z1) z2) z3) 0) as [E|E];
    rewrite !Z.lor_eq_0_iff in E.
  - destruct E as [[[[-> ->] ->] ->] ->]. reflexivity.
  - destruct (Z.eqb_spec (z + 2 ^ 51 * (z0 + 2 ^ 51 * (z1 + 2 ^ 51 *
               (z2 + 2 ^ 51 * (z3 + 2 ^ 51 * 0))))) 0) as [V|V]; [|reflexivity].
    exfalso. apply E. repeat split; lia.
Qed.

Lemma gf_is_zero_spec x :
  gf_wf x ->
  gf_is_zero x = if gf_value x mod P25519 =? 0 then MASK_ONES else MASK_ZERO.
Proof.
  intros H. destruct (gf_strong_reduce_facts x H) as [Hl [Hv _]].
  unfold gf_is_zero. cbv zeta. rewrite (or_limbs_zero _ Hl), Hv. reflexivity.
Qed.

Lemma mod_sub_zero_iff a b m :
  0 < m -> ((a - b) mod m = 0 <-> a mod m = b mod m).
Proof.
  intros Hm. split; intros E.
  - pose proof (Z.div_mod (a - b) m ltac:(lia)) as D. rewrite E in D.
    apply mod_sub_multiple with (k := (a - b) / m). lia.
  - rewrite Zminus_mod, E, Z.sub_diag. apply Z.mod_0_l. lia.
Qed.

Lemma gf_eq_is_zero a b : gf_eq a b = gf_is_zero (gf_sub a b).
Proof. unfold gf_eq, gf_is_zero. reflexivity. Qed.

Lemma gf_eq_value a b :
  gf_weak a -> gf_weak b ->
  gf_eq a b = if gf_value a mod P25519 =? gf_value b mod P25519
              then MASK_ONES else MASK_ZERO.
Proof.
  intros Ha Hb.
  rewrite gf_eq_is_zero.
  rewrite gf_is_zero_spec by (apply gf_weak_wf, gf_sub_weak; assumption).
  rewrite gf_sub_mod by assumption.
  assert (Hp : 0 < P25519) by (unfold P25519; lia).
  pose proof (mod_sub_zero_iff (gf_value a) (gf_value b) P25519 Hp) as I.
  destruct (Z.eqb_spec ((gf_value a - gf_value b) mod P25519) 0) as [E|E];
    destruct (Z.eqb_spec (gf_value a mod P25519) (gf_value b mod P25519)) as [F|F];
    try reflexivity; exfalso; tauto.
Qed.

Lemma gf_strong_reduce_eq_iff a b :
  gf_wf a -> gf_wf b ->
  (gf_strong_reduce a = gf_strong_reduce b
   <-> gf_value a mod P25519 = gf_value b mod P25519).
Proof.
  intros Ha Hb.
  destruct (gf_strong_reduce_facts a Ha) as [La [Va _]].
  destruct (gf_strong_reduce_facts b Hb) as [Lb [Vb _]].
  rewrite <- Va, <- Vb. split; intros E.
  - rewrite E. reflexivity.
  - apply limbs_below_inj; assumption.
Qed.

(** C6: on weakly reduced [a] and [b], [gf_eq a b] is [is_zero (a - b)]: the
    all-ones mask when [a] and [b] have the same residue modulo p, which is
    when their strong reductions are equal limb by limb, and the all-zeros
    mask otherwise. *)
Theorem gf_eq_spec a b :
  gf_weak a -> gf_weak b ->
  gf_eq a b = gf_is_zero (gf_sub a b) /\
  (gf_eq a b = MASK_ONES \/ gf_eq a b = MASK_ZERO) /\
  (gf_eq a b = MASK_ONES <-> gf_value a mod P25519 = gf_value b mod P25519) /\
  (gf_eq a b = MASK_ONES <-> gf_strong_reduce a = gf_strong_reduce b).
Proof.
  intros Ha Hb. pose proof (gf_eq_value a b Ha Hb) as E.
  pose proof (gf_strong_reduce_eq_iff a b (gf_weak_wf a Ha) (gf_weak_wf b Hb)) as I.
  split; [apply gf_eq_is_zero|].
  destruct (Z.eqb_spec (gf_value a mod P25519) (gf_value b mod P25519)) as [F|F];
    rewrite E.
  - split; [left; reflexivity|]. split; [tauto|]. tauto.
  - split; [right; reflexivity|].
    split; (split; [intros C; discriminate C | intros C; exfalso; tauto]).
Qed.

Lemma gf_eq_spec_witness :
  gf_eq [2 ^ 51 - 19; 2 ^ 51 - 1; 2 ^ 51 - 1; 2 ^ 51 - 1; 2 ^ 51 - 1] [0; 0; 0; 0; 0]
  = MASK_ONES.
Proof.
  apply (gf_eq_spec [2 ^ 51 - 19; 2 ^ 51 - 1; 2 ^ 51 - 1; 2 ^ 51 - 1; 2 ^ 51 - 1]
                    [0; 0; 0; 0; 0]).
  - split; [reflexivity | repeat constructor; cbv; congruence].
  - split; [reflexivity | repeat constructor; cbv; congruence].
  - vm_compute. reflexivity.
Defined.

Lemma low_bit_mask y :
  limbs_below 51 y ->
  u64 (- Z.land (limb y 0) 1) = if Z.odd (gf_value y) then MASK_ONES else MASK_ZERO.
Proof.
  intros H. gf_destruct y H. cbn [limb nth gf_value].
  change 1 with (Z.ones 1) at 1. rewrite Z.land_ones by lia.
  change (2 ^ 1) with 2.
  set (rest := z0 + 2 ^ 51 * (z1 + 2 ^ 51 * (z2 + 2 ^ 51 * (z3 + 2 ^ 51 * 0)))).
  replace (z + 2 ^ 51 * rest) with (z + 2 * (2 ^ 50 * rest)) by lia.
  rewrite Z.odd_add_mul_2, Zmod_odd.
  destruct (Z.odd z); reflexivity.
Qed.

Lemma gf_hibit_value x :
  gf_weak x ->
  gf_hibit x = if Z.odd ((2 * gf_value x) mod P25519) then MASK_ONES else MASK_ZERO.
Proof.
  intros H. destruct (gf_add_spec x x H H) as [Hv Hw]. apply gf_weak_wf in Hw.
  destruct (gf_strong_reduce_facts _ Hw) as [Hl [Hs _]].
  unfold gf_hibit. cbv zeta. rewrite (low_bit_mask _ Hl), Hs, Hv.
  replace (gf_value x + gf_value x) with (2 * gf_value x) by lia. reflexivity.
Qed.

Lemma gf_lobit_value x :
  gf_wf x ->
  gf_lobit x = if Z.odd (gf_value x mod P25519) then MASK_ONES else MASK_ZERO.
Proof.
  intros H. destruct (gf_strong_reduce_facts _ H) as [Hl [Hs _]].
  unfold gf_lobit, gf_copy. cbv zeta. rewrite (low_bit_mask _ Hl), Hs. reflexivity.
Qed.

(** C7: on a weakly reduced [x], [gf_hibit x] is the all-ones mask when the
    canonical representative of [2 x] modulo p is odd and all-zeros otherwise,
    and [gf_lobit x] is the same for the canonical representative of [x]. *)
Theorem gf_hibit_lobit_spec x :
  gf_weak x ->
  gf_hibit x = (if Z.odd ((2 * gf_value x) mod P25519) then MASK_ONES else MASK_ZERO) /\
  gf_lobit x = (if Z.odd (gf_value x mod P25519) then MASK_ONES else MASK_ZERO).
Proof.
  intros H. split; [apply gf_hibit_value | apply gf_lobit_value, gf_weak_wf]; exact H.
Qed.

Lemma gf_hibit_lobit_spec_witness :
  gf_hibit [2 ^ 51 - 20; 2 ^ 51 - 1; 2 ^ 51 - 1; 2 ^ 51 - 1; 2 ^ 51 - 1] = MASK_ONES /\
  gf_lobit [2 ^ 51 - 20; 2 ^ 51 - 1; 2 ^ 51 - 1; 2 ^ 51 - 1; 2 ^ 51 - 1] = MASK_ZERO.
Proof.
  apply (gf_hibit_lobit_spec [2 ^ 51 - 20; 2 ^ 51 - 1; 2 ^ 51 - 1; 2 ^ 51 - 1; 2 ^ 51 - 1]).
  split; [reflexivity | repeat constructor; cbv; congruence].
Defined.

(** ** Success tags *)

(** C8: [RISTRETTO_SUCCESS] is -1, the all-ones word, and [RISTRETTO_FAILURE]
    is 0, the all-zeros word; [ristretto_successful] is all-ones exactly on
    [RISTRETTO_SUCCESS] and all-zeros exactly on [RISTRETTO_FAILURE]. *)
Theorem ristretto_successful_spec :
  error_value RISTRETTO_SUCCESS = -1 /\
  u64 (error_value RISTRETTO_SUCCESS) = MASK_ONES /\
  error_value RISTRETTO_FAILURE = 0 /\
  u64 (error_value RISTRETTO_FAILURE) = MASK_ZERO /\
  forall e : ristretto_error_t,
    (ristretto_successful e = MASK_ONES <-> e = RISTRETTO_SUCCESS) /\
    (ristretto_successful e = MASK_ZERO <-> e = RISTRETTO_FAILURE).
Proof.
  repeat (split; [reflexivity|]).
  intros e; destruct e; split; split; intros H;
    try reflexivity; try discriminate H.
Qed.

(** ** Bytes and bit strings *)

Lemma byte_val_range b : 0 <= byte_val b < 256.
Proof. unfold byte_val. pose proof (Byte.to_N_bounded b). lia. Qed.

Lemma byte_val_of x : byte_val (byte_of x) = x mod 256.
Proof.
  unfold byte_of, byte_val, u8, wrap. change (2 ^ 8) with 256.
  pose proof (Z.mod_pos_bound x 256 ltac:(lia)) as B.
  destruct (Byte.of_N (Z.to_N (x mod 256))) as [b|] eqn:E.
  - apply Byte.to_of_N in E. rewrite E. lia.
  - apply Byte.of_N_None_iff in E. lia.
Qed.

Lemma land_shiftl_low b c k :
  0 <= k -> 0 <= b < 2 ^ k -> Z.land b (Z.shiftl c k) = 0.
Proof.
  intros Hk Hb. apply Z.bits_inj'. intros n Hn.
  rewrite Z.land_spec, Z.bits_0.
  destruct (Z.ltb_spec n k) as [L|L].
  - rewrite Z.shiftl_spec_low by lia. apply andb_false_r.
  - rewrite <- (Z.mod_small b (2 ^ k)) by lia.
    rewrite Z.mod_pow2_bits_high by lia. reflexivity.
Qed.

(** Bits put above the bits held in the buffer add to it. *)
Lemma lor_shiftl_add b c k :
  0 <= k -> 0 <= b < 2 ^ k -> Z.lor b (Z.shiftl c k) = b + c * 2 ^ k.
Proof.
  intros Hk Hb. pose proof (land_shiftl_low b c k Hk Hb) as D.
  rewrite <- Z.lxor_lor by exact D.
  rewrite <- Z.add_nocarry_lxor by exact D.
  rewrite Z.shiftl_mul_pow2 by lia. reflexivity.
Qed.

Lemma u32_small x : 0 <= x < 2 ^ 32 -> u32 x = x.
Proof. intros; apply Z.mod_small; assumption. Qed.

Lemma pow2_split a b : 0 <= a -> 0 <= b -> 2 ^ (a + b) = 2 ^ a * 2 ^ b.
Proof. intros. apply Z.pow_add_r; assumption. Qed.

Lemma gf_value_skipn (a : gf_25519_t) j :
  (j < length a)%nat ->
  gf_value (skipn j a) = limb a j + 2 ^ 51 * gf_value (skipn (S j) a).
Proof.
  revert a. induction j as [|j IH]; intros [|h t] Hj; cbn [length] in Hj; try lia.
  - reflexivity.
  - cbn [skipn limb nth]. apply (IH t). lia.
Qed.

(** ** Serialization *)

(** The bytes written are the base-256 digits of the bits still to write:
    those in [buffer] and, above them, the limbs from [j] on. *)
Lemma serialize_loop_value n : forall red j fill buffer,
  limbs_below 51 red -> (j <= 5)%nat ->
  0 <= fill < 2 ^ 32 -> 0 <= buffer < 2 ^ fill ->
  le_value (serialize_loop n red j fill buffer)
  = (buffer + 2 ^ fill * gf_value (skipn j red)) mod 2 ^ (8 * Z.of_nat n).
Proof.
  induction n as [|n IH]; intros red j fill buffer Hred Hj Hfill Hbuf.
  - cbn [serialize_loop le_value]. change (8 * Z.of_nat 0) with 0.
    rewrite Z.mod_1_r. reflexivity.
  - destruct Hred as [Hlen Hall].
    assert (Hpow : 2 ^ (8 * Z.of_nat (S n)) = 256 * 2 ^ (8 * Z.of_nat n)).
    { replace (8 * Z.of_nat (S n)) with (8 + 8 * Z.of_nat n) by lia.
      rewrite pow2_split by lia. reflexivity. }
    assert (Hpos : 0 < 2 ^ (8 * Z.of_nat n)) by (apply Z.pow_pos_nonneg; lia).
    assert (Hstep : forall j' fill' buffer',
      (j' <= 5)%nat -> 8 <= fill' < 2 ^ 32 -> 0 <= buffer' < 2 ^ fill' ->
      buffer' + 2 ^ fill' * gf_value (skipn j' red)
        = buffer + 2 ^ fill * gf_value (skipn j red) ->
      le_value (byte_of buffer'
                :: serialize_loop n red j' (u32 (fill' - 8)) (Z.shiftr buffer' 8))
      = (buffer + 2 ^ fill * gf_value (skipn j red)) mod 2 ^ (8 * Z.of_nat (S n))).
    { intros j' fill' buffer' Hj' Hfill' Hbuf' E.
      cbn [le_value]. rewrite byte_val_of.
      assert (F : 2 ^ fill' = 2 ^ (fill' - 8) * 256).
      { replace fill' with ((fill' - 8) + 8) at 1 by lia.
        rewrite pow2_split by lia. reflexivity. }
      assert (0 < 2 ^ (fill' - 8)) by (apply Z.pow_pos_nonneg; lia).
      rewrite (u32_small (fill' - 8)) by lia.
      rewrite Z.shiftr_div_pow2 by lia. change (2 ^ 8) with 256.
      rewrite IH; [| split; assumption | exact Hj' | lia |
                   split; [apply Z.div_pos; lia
                          | apply Z.div_lt_upper_bound; lia]].
      rewrite <- E, Hpow, F.
      set (R := gf_value (skipn j' red)).
      replace (buffer' + 2 ^ (fill' - 8) * 256 * R)
        with (buffer' + (2 ^ (fill' - 8) * R) * 256) by lia.
      rewrite Z.rem_mul_r by lia.
      rewrite Z.mod_add by lia. rewrite Z.div_add by lia. reflexivity. }
    cbn [serialize_loop].
    destruct (Z.ltb_spec fill 8) as [Lf|Lf];
      [destruct (Nat.ltb_spec j RISTRETTO255_FIELD_LIMBS) as [Lj|Lj]|];
      cbn [andb].
    + (* a limb is taken *)
      unfold LIMBPERM, LIMB_PLACE_VALUE.
      change RISTRETTO255_FIELD_LIMBS with 5%nat in *.
      assert (Bl : 0 <= limb red j < 2 ^ 51).
      { apply (proj1 (Forall_nth _ red) Hall). rewrite Hlen. exact Lj. }
      assert (0 < 2 ^ fill <= 2 ^ 8)
        by (split; [apply Z.pow_pos_nonneg; lia | apply Z.pow_le_mono_r; lia]).
      rewrite (u128_small (limb red j)) by lia.
      rewrite Z.shiftl_mul_pow2 by lia.
      rewrite (u128_small (limb red j * 2 ^ fill)) by nia.
      rewrite <- Z.shiftl_mul_pow2 by lia.
      rewrite lor_shiftl_add by lia.
      rewrite (u32_small (fill + 51)) by lia.
      apply Hstep; [lia | lia | | ].
      * rewrite pow2_split by lia. nia.
      * rewrite (gf_value_skipn red j) by lia.
        rewrite pow2_split by lia. lia.
    + (* no limb is left *)
      change RISTRETTO255_FIELD_LIMBS with 5%nat in *.
      assert (j = 5)%nat by lia. subst j.
      assert (Hz : gf_value (skipn 5 red) = 0).
      { rewrite skipn_all2 by (rewrite Hlen; apply Nat.le_refl). reflexivity. }
      rewrite Hz, Z.mul_0_r, Z.add_0_r.
      assert (2 ^ fill <= 2 ^ 8) by (apply Z.pow_le_mono_r; lia).
      cbn [le_value]. rewrite byte_val_of.
      rewrite Z.shiftr_div_pow2 by lia. change (2 ^ 8) with 256 in *.
      rewrite (Z.div_small buffer 256) by lia.
      assert (Hw : 0 <= u32 (fill - 8) < 2 ^ 32) by (apply Z.mod_pos_bound; lia).
      rewrite IH; [| split; assumption | lia | exact Hw |
                   split; [lia | apply Z.pow_pos_nonneg; lia]].
      rewrite Hz, Z.mul_0_r. change (0 + 0) with 0.
      rewrite (Z.mod_0_l (2 ^ (8 * Z.of_nat n))) by lia.
      rewrite Hpow. rewrite !Z.mod_small by nia. lia.
    + (* enough bits are held *)
      apply Hstep; [exact Hj | lia | exact Hbuf | reflexivity].
Qed.

Lemma serialize_loop_length n : forall red j fill buffer,
  length (serialize_loop n red j fill buffer) = n.
Proof.
  induction n as [|n IH]; intros; cbn [serialize_loop]; [reflexivity|].
  destruct ((fill <? 8) && (j <? RISTRETTO255_FIELD_LIMBS)%nat);
    cbn [length]; rewrite IH; reflexivity.
Qed.

Lemma gf_serialize_facts x with_hibit :
  gf_wf x ->
  length (gf_serialize x with_hibit) = SER_BYTES /\
  le_value (gf_serialize x with_hibit) = gf_value x mod P25519.
Proof.
  intros H. destruct (gf_strong_reduce_facts x H) as [Hl [Hv _]].
  unfold gf_serialize, gf_copy. cbv zeta.
  split; [apply serialize_loop_length|].
  rewrite serialize_loop_value; [| exact Hl | lia | lia | change (2 ^ 0) with 1; lia].
  cbn [skipn]. rewrite Hv. change (2 ^ 0) with 1.
  rewrite Z.add_0_l, Z.mul_1_l.
  apply Z.mod_small.
  pose proof (Z.mod_pos_bound (gf_value x) P25519 ltac:(unfold P25519; lia)).
  unfold SER_BYTES, RISTRETTO255_SER_BYTES, P25519 in *. lia.
Qed.

(** ** Deserialization *)

Lemma land_byte_small s m : 0 <= s < 256 -> u8 (Z.land s m) = Z.land s m.
Proof.
  intros Hs. unfold u8, wrap.
  rewrite <- Z.land_ones by lia.
  rewrite <- Z.land_assoc, (Z.land_comm m), Z.land_assoc.
  rewrite (Z.land_ones s) by lia.
  rewrite (Z.mod_small s) by (change (2 ^ 8) with 256; lia). reflexivity.
Qed.

Lemma land_byte_range s m : 0 <= s < 256 -> 0 <= Z.land s m < 256.
Proof.
  intros Hs. rewrite <- (land_byte_small s m Hs).
  apply (Z.mod_pos_bound _ (2 ^ 8)). lia.
Qed.

Lemma read_byte_range serial hi_nmask j : 0 <= read_byte serial hi_nmask j < 256.
Proof.
  unfold read_byte. cbv zeta. pose proof (byte_val_range (nth j serial x00)).
  destruct (j =? SER_BYTES - 1)%nat; [|assumption].
  rewrite land_byte_small by assumption. apply land_byte_range. assumption.
Qed.

Lemma wire_tail_step serial hi_nmask j :
  (j < SER_BYTES)%nat ->
  wire_tail serial hi_nmask (SER_BYTES - j) j
  = read_byte serial hi_nmask j
    + 256 * wire_tail serial hi_nmask (SER_BYTES - S j) (S j).
Proof.
  intros Hj. replace (SER_BYTES - j)%nat with (S (SER_BYTES - S j)) by lia.
  reflexivity.
Qed.

(** The inner loop keeps the bits not yet stored in a limb, [buffer] with
    the bytes from [j] on above it, and stops once 51 bits are held or the
    bytes are used up. *)
Lemma deserialize_fill_spec serial hi_nmask i fuel : forall j fill buffer,
  (j <= SER_BYTES)%nat -> (SER_BYTES - j <= fuel)%nat ->
  0 <= fill < 2 ^ 31 -> 0 <= buffer < 2 ^ fill ->
  exists j' fill' buffer',
    deserialize_fill fuel i serial hi_nmask j fill buffer = (j', fill', buffer') /\
    (j <= j' <= SER_BYTES)%nat /\
    fill' = fill + 8 * (Z.of_nat j' - Z.of_nat j) /\
    0 <= buffer' < 2 ^ fill' /\
    buffer' + 2 ^ fill' * wire_tail serial hi_nmask (SER_BYTES - j') j'
      = buffer + 2 ^ fill * wire_tail serial hi_nmask (SER_BYTES - j) j /\
    (51 <= fill' \/ j' = SER_BYTES) /\
    (j' = j \/ fill' < 59).
Proof.
  induction fuel as [|fuel IH]; intros j fill buffer Hj Hfuel Hfill Hbuf.
  - exists j, fill, buffer. cbn [deserialize_fill].
    change SER_BYTES with 32%nat in *. repeat split; lia.
  - cbn [deserialize_fill]. unfold LIMB_PLACE_VALUE.
    destruct (Z.ltb_spec fill 51) as [Lf|Lf];
      [destruct (Nat.ltb_spec j SER_BYTES) as [Lj|Lj]|]; cbn [andb].
    + fold (read_byte serial hi_nmask j).
      pose proof (read_byte_range serial hi_nmask j) as Br.
      set (sj := read_byte serial hi_nmask j) in *.
      assert (0 < 2 ^ fill <= 2 ^ 51)
        by (split; [apply Z.pow_pos_nonneg; lia | apply Z.pow_le_mono_r; lia]).
      rewrite Z.shiftl_mul_pow2 by lia.
      rewrite (u128_small (sj * 2 ^ fill)) by nia.
      rewrite <- Z.shiftl_mul_pow2 by lia.
      rewrite lor_shiftl_add by lia.
      rewrite (u32_small (fill + 8)) by lia.
      assert (P8 : 2 ^ (fill + 8) = 2 ^ fill * 256)
        by (rewrite pow2_split by lia; reflexivity).
      destruct (IH (S j) (fill + 8) (buffer + sj * 2 ^ fill))
        as (j' & fill' & buffer' & E & Hj' & Hf' & Hb' & Hv & Hx & Hm);
        [lia | lia | lia | rewrite P8; nia |].
      exists j', fill', buffer'. rewrite E.
      split; [reflexivity|]. split; [lia|]. split; [lia|]. split; [exact Hb'|].
      split; [|split; [exact Hx | right; lia]].
      rewrite Hv, (wire_tail_step serial hi_nmask j Lj), P8. fold sj. lia.
    + exists j, fill, buffer. change SER_BYTES with 32%nat in *. repeat split; lia.
    + exists j, fill, buffer. change SER_BYTES with 32%nat in *. repeat split; lia.
Qed.

Lemma sign_shift v :
  - 2 ^ 64 <= v < 2 ^ 64 -> Z.shiftr (s128 v) (8 * 8) = if v <? 0 then -1 else 0.
Proof.
  intros Hv. rewrite s128_small by lia. rewrite Z.shiftr_div_pow2 by lia.
  change (2 ^ (8 * 8)) with (2 ^ 64).
  destruct (Z.ltb_spec v 0).
  - symmetry. apply Z.div_unique with (r := v + 2 ^ 64); lia.
  - apply Z.div_small. lia.
Qed.

Lemma limb_set_limb (x : gf_25519_t) i v :
  (i < length x)%nat -> limb (set_limb x i v) i = v.
Proof.
  revert i. induction x as [|h t IH]; intros [|i] Hi; cbn [length] in Hi; try lia.
  - reflexivity.
  - cbn [set_limb limb nth]. apply (IH i). lia.
Qed.

Lemma set_limb_length (x : gf_25519_t) i v : length (set_limb x i v) = length x.
Proof.
  revert i. induction x as [|h t IH]; intros [|i]; cbn [set_limb length];
    try reflexivity. rewrite IH. reflexivity.
Qed.

(** One turn of the outer loop, when at least 51 bits remain to be taken. *)
Lemma deserialize_body_spec serial hi_nmask x j fill buffer scarry i :
  length x = RISTRETTO255_FIELD_LIMBS -> (i < RISTRETTO255_FIELD_LIMBS)%nat ->
  (j <= SER_BYTES)%nat -> 0 <= fill < 51 -> 0 <= buffer < 2 ^ fill ->
  51 <= fill + 8 * (Z.of_nat SER_BYTES - Z.of_nat j) ->
  -1 <= scarry <= 0 ->
  exists j' fill' b',
    let l := if (i <? 4)%nat then b' mod 2 ^ 51 else b' in
    deserialize_body serial hi_nmask (x, j, fill, buffer, scarry) i
    = ((set_limb x i l : list Z), j', fill' - 51, b' / 2 ^ 51,
       if scarry + l - limb MODULUS i <? 0 then -1 else 0) /\
    (j <= j' <= SER_BYTES)%nat /\
    fill' = fill + 8 * (Z.of_nat j' - Z.of_nat j) /\
    51 <= fill' < 59 /\
    0 <= b' < 2 ^ fill' /\
    b' + 2 ^ fill' * wire_tail serial hi_nmask (SER_BYTES - j') j'
      = buffer + 2 ^ fill * wire_tail serial hi_nmask (SER_BYTES - j) j.
Proof.
  intros Hlen Hi Hj Hfill Hbuf Hrem Hsc.
  destruct (deserialize_fill_spec serial hi_nmask i SER_BYTES j fill buffer)
    as (j' & fill' & b' & E & Hj' & Hf' & Hb' & Hv & Hx & Hm);
    [exact Hj | lia | lia | exact Hbuf |].
  assert (Hf51 : 51 <= fill' < 59).
  { change SER_BYTES with 32%nat in *. lia. }
  exists j', fill', b'. cbv zeta.
  split; [|repeat split; try lia; exact Hv].
  unfold deserialize_body. rewrite E.
  unfold LIMBPERM, LIMB_PLACE_VALUE, LIMB_MASK.
  change (RISTRETTO255_FIELD_LIMBS - 1)%nat with 4%nat.
  rewrite land_mask51, shiftr51.
  rewrite (u32_small (fill' - 51)) by lia.
  assert (B59 : 2 ^ fill' <= 2 ^ 59) by (apply Z.pow_le_mono_r; lia).
  pose proof (Z.mod_pos_bound b' (2 ^ 51) ltac:(lia)) as Bm.
  assert (El : u64 (if (i <? 4)%nat then b' mod 2 ^ 51 else b')
               = if (i <? 4)%nat then b' mod 2 ^ 51 else b').
  { destruct (i <? 4)%nat; apply u64_small; lia. }
  rewrite El.
  rewrite limb_set_limb by (rewrite Hlen; exact Hi).
  rewrite sign_shift; [reflexivity|].
  assert (0 <= limb MODULUS i < 2 ^ 51).
  { change RISTRETTO255_FIELD_LIMBS with 5%nat in Hi.
    do 5 (destruct i as [|i]; [cbv; split; congruence|]). lia. }
  destruct (i <? 4)%nat; lia.
Qed.

Lemma sign_cases v :
  ((if v <? 0 then -1 else 0) = -1 /\ v < 0) \/
  ((if v <? 0 then -1 else 0) = 0 /\ 0 <= v).
Proof. destruct (Z.ltb_spec v 0); [left | right]; split; (reflexivity || lia). Qed.

(** Take one turn of the outer loop at a state whose [j] and [fill] are
    known, and name what it computes. *)
Ltac deser_turn serial hi x j fill buffer scarry i jn fn :=
  let j' := fresh "j" in let f' := fresh "f" in let b' := fresh "b" in
  let E := fresh "E" in let Hj := fresh "Hj" in let Hf := fresh "Hf" in
  let Hr := fresh "Hr" in let Hb := fresh "Hb" in let Hv := fresh "Hv" in
  destruct (deserialize_body_spec serial hi x j fill buffer scarry i)
    as (j' & f' & b' & E & Hj & Hf & Hr & Hb & Hv);
  [ reflexivity | cbv; lia | cbv; lia | lia | lia
  | change (Z.of_nat SER_BYTES) with 32; lia | lia | ];
  assert (j' = jn) by lia; subst j';
  assert (f' = fn) by lia; clear Hf; subst f';
  cbv zeta in E; cbn [set_limb Nat.ltb Nat.leb limb nth MODULUS] in E;
  rewrite E; clear E Hj Hr.

Lemma deserialize_loop_spec serial hi_nmask :
  let v := wire_tail serial hi_nmask SER_BYTES 0 in
  exists x j fill buffer scarry,
    fold_left (deserialize_body serial hi_nmask)
              (seq 0 RISTRETTO255_FIELD_LIMBS) ([0; 0; 0; 0; 0], 0%nat, 0, 0, 0)
    = (x, j, fill, buffer, scarry) /\
    gf_weak x /\ gf_value x = v /\
    (v < 2 ^ 255 -> limbs_below 51 x) /\
    buffer = v / 2 ^ 255 /\
    scarry = (if v <? P25519 then -1 else 0) /\
    0 <= v < 2 ^ 256.
Proof.
  cbv zeta. cbn [fold_left seq RISTRETTO255_FIELD_LIMBS].
  deser_turn serial hi_nmask [0; 0; 0; 0; 0] 0%nat 0 0 0 0%nat 7%nat 56.
  change (56 - 51) with 5.
  destruct (sign_cases (0 + b mod 2 ^ 51 - 2251799813685229)) as [[-> S0]|[-> S0]];
  pose proof (Z.div_mod b (2 ^ 51) ltac:(lia)) as D0;
  pose proof (Z.mod_pos_bound b (2 ^ 51) ltac:(lia)) as M0;
  set (l0 := b mod 2 ^ 51) in *; set (c0 := b / 2 ^ 51) in *; clearbody l0 c0.
  all: match goal with |- context [(_, _, _, _, ?sc)] =>
    deser_turn serial hi_nmask [l0; 0; 0; 0; 0] 7%nat 5 c0 sc 1%nat 13%nat 53 end.
  all: change (53 - 51) with 2.
  all: match goal with |- context [?sc + ?b mod 2 ^ 51 - 2251799813685247] =>
    destruct (sign_cases (sc + b mod 2 ^ 51 - 2251799813685247)) as [[-> S1]|[-> S1]];
    pose proof (Z.div_mod b (2 ^ 51) ltac:(lia)) as D1;
    pose proof (Z.mod_pos_bound b (2 ^ 51) ltac:(lia)) as M1;
    set (l1 := b mod 2 ^ 51) in *; set (c1 := b / 2 ^ 51) in *; clearbody l1 c1 end.
  all: match goal with |- context [(_, _, _, _, ?sc)] =>
    deser_turn serial hi_nmask [l0; l1; 0; 0; 0] 13%nat 2 c1 sc 2%nat 20%nat 58 end.
  all: change (58 - 51) with 7.
  all: match goal with |- context [?sc + ?b mod 2 ^ 51 - 2251799813685247] =>
    destruct (sign_cases (sc + b mod 2 ^ 51 - 2251799813685247)) as [[-> S2]|[-> S2]];
    pose proof (Z.div_mod b (2 ^ 51) ltac:(lia)) as D2;
    pose proof (Z.mod_pos_bound b (2 ^ 51) ltac:(lia)) as M2;
    set (l2 := b mod 2 ^ 51) in *; set (c2 := b / 2 ^ 51) in *; clearbody l2 c2 end.
  all: match goal with |- context [(_, _, _, _, ?sc)] =>
    deser_turn serial hi_nmask [l0; l1; l2; 0; 0] 20%nat 7 c2 sc 3%nat 26%nat 55 end.
  all: change (55 - 51) with 4.
  all: match goal with |- context [?sc + ?b mod 2 ^ 51 - 2251799813685247] =>
    destruct (sign_cases (sc + b mod 2 ^ 51 - 2251799813685247)) as [[-> S3]|[-> S3]];
    pose proof (Z.div_mod b (2 ^ 51) ltac:(lia)) as D3;
    pose proof (Z.mod_pos_bound b (2 ^ 51) ltac:(lia)) as M3;
    set (l3 := b mod 2 ^ 51) in *; set (c3 := b / 2 ^ 51) in *; clearbody l3 c3 end.
  all: match goal with |- context [(_, _, _, _, ?sc)] =>
    deser_turn serial hi_nmask [l0; l1; l2; l3; 0] 26%nat 4 c3 sc 4%nat 32%nat 52 end.
  all: change (52 - 51) with 1.
  all: match goal with |- context [?sc + ?b - 2251799813685247] =>
    destruct (sign_cases (sc + b - 2251799813685247)) as [[-> S4]|[-> S4]];
    pose proof (Z.div_mod b (2 ^ 51) ltac:(lia)) as D4;
    pose proof (Z.mod_pos_bound b (2 ^ 51) ltac:(lia)) as M4;
    set (c4 := b / 2 ^ 51) in *; clearbody c4 end.
  all: change (wire_tail serial hi_nmask (SER_BYTES - 32) 32) with 0 in *.
  all: change (wire_tail serial hi_nmask (SER_BYTES - 0) 0)
         with (wire_tail serial hi_nmask SER_BYTES 0) in *.
  all: set (v := wire_tail serial hi_nmask SER_BYTES 0) in *; clearbody v.
  all: unfold P25519.
  all: eexists; eexists; eexists; eexists; eexists; split; [reflexivity|].
  all: cbn [gf_value].
  all: assert (Ev : l0 + 2 ^ 51 * (l1 + 2 ^ 51 * (l2 + 2 ^ 51 * (l3 + 2 ^ 51 *
                     (b3 + 2 ^ 51 * 0)))) = v) by lia.
  all: assert (Bv : 0 <= v < 2 ^ 256) by lia.
  all: split; [limbs_solve|]; split; [exact Ev|].
  all: split; [intros Hlt; limbs_solve|].
  all: split; [apply Z.div_unique with (r := v - 2 ^ 255 * c4); lia|].
  all: split; [|exact Bv].
  all: destruct (Z.ltb_spec v (2 ^ 255 - 19)); lia.
Qed.

Lemma wire_tail_value serial hi_nmask :
  length serial = SER_BYTES ->
  wire_tail serial hi_nmask SER_BYTES 0 = wire_value serial hi_nmask.
Proof.
  intros Hlen.
  do 32 (destruct serial as [|? serial]; [discriminate Hlen|]).
  destruct serial; [|discriminate Hlen]. clear Hlen.
  unfold wire_value. cbn [wire_tail SER_BYTES RISTRETTO255_SER_BYTES].
  unfold read_byte.
  cbn [SER_BYTES RISTRETTO255_SER_BYTES nth Nat.eqb Nat.sub firstn le_value].
  rewrite land_byte_small by apply byte_val_range. lia.
Qed.

Lemma wire_value_unmasked serial :
  length serial = SER_BYTES -> wire_value serial x00 = le_value serial.
Proof.
  intros Hlen.
  do 32 (destruct serial as [|? serial]; [discriminate Hlen|]).
  destruct serial; [|discriminate Hlen]. clear Hlen.
  unfold wire_value. cbn [nth firstn le_value].
  change (Z.lnot (byte_val x00)) with (-1). rewrite Z.land_m1_r. lia.
Qed.

Lemma gf_deserialize_facts serial with_hibit hi_nmask :
  length serial = SER_BYTES ->
  let v := wire_value serial hi_nmask in
  let r := gf_deserialize serial with_hibit hi_nmask in
  gf_weak (fst r) /\
  gf_value (fst r) = v /\
  (v < 2 ^ 255 -> limbs_below 51 (fst r)) /\
  snd r = if (v <? P25519)
             && (negb (with_hibit =? 0) || Z.even ((2 * v) mod P25519))
          then MASK_ONES else MASK_ZERO.
Proof.
  intros Hlen. cbv zeta. unfold gf_deserialize.
  destruct (deserialize_loop_spec serial hi_nmask)
    as (x & j & fill & buffer & scarry & E & Hw & Hv & Hc & Hb & Hs & Bv).
  rewrite E. cbn [fst snd]. rewrite (wire_tail_value _ _ Hlen) in *.
  set (v := wire_value serial hi_nmask) in *.
  split; [exact Hw|]. split; [exact Hv|]. split; [exact Hc|].
  rewrite (gf_hibit_value x Hw), Hv, !word_is_zero_spec, Hs.
  rewrite <- Z.negb_odd.
  destruct (Z.ltb_spec v P25519) as [L|L]; cbn [andb].
  - assert (Hb0 : buffer = 0).
    { rewrite Hb. apply Z.div_small. unfold P25519 in L. lia. }
    rewrite Hb0.
    destruct (with_hibit =? 0); cbn [negb orb];
      [destruct (Z.odd ((2 * v) mod P25519))|]; reflexivity.
  - change (u64 0 =? 0) with true. cbv iota.
    change (u64 (Z.lnot MASK_ONES)) with 0. apply Z.land_0_r.
Qed.

(** The claim C3 as stated fails: without the high bit, a string whose
    value [2^254] is below p is rejected. *)
Lemma gf_deserialize_hibit_counterexample :
  ~ (forall serial with_hibit hi_nmask,
       length serial = SER_BYTES ->
       snd (gf_deserialize serial with_hibit hi_nmask)
       = if wire_value serial hi_nmask <? P25519 then MASK_ONES else MASK_ZERO).
Proof.
  intros H. specialize (H (repeat x00 31 ++ [x40]) 0 x00 eq_refl).
  vm_compute in H. discriminate H.
Qed.

(** C3, amended: on 32 bytes, [gf_deserialize] stores in [x] the
    little-endian value [v] of the bytes, the last one masked by [~hi_nmask].
    With [with_hibit] set it returns all-ones when [v < p] and all-zeros
    otherwise; with [with_hibit] clear it returns all-ones when [v < p] and
    the canonical representative of [2 v] is even, and all-zeros otherwise. *)
Theorem gf_deserialize_spec serial with_hibit hi_nmask :
  length serial = SER_BYTES ->
  let v := wire_value serial hi_nmask in
  let r := gf_deserialize serial with_hibit hi_nmask in
  gf_value (fst r) = v /\
  (with_hibit <> 0 ->
     snd r = if v <? P25519 then MASK_ONES else MASK_ZERO) /\
  (with_hibit = 0 ->
     snd r = if (v <? P25519) && Z.even ((2 * v) mod P25519)
             then MASK_ONES else MASK_ZERO).
Proof.
  intros Hlen.
  destruct (gf_deserialize_facts serial with_hibit hi_nmask Hlen) as [_ [Hv [_ Hs]]].
  cbv zeta in *. split; [exact Hv|]. rewrite Hs. split; intros Hh.
  - apply Z.eqb_neq in Hh. rewrite Hh. cbn [negb orb]. rewrite andb_true_r. reflexivity.
  - subst with_hibit. reflexivity.
Qed.

Lemma gf_deserialize_spec_witness :
  gf_value (fst (gf_deserialize (repeat xff 31 ++ [x3f]) 0 x00))
  = wire_value (repeat xff 31 ++ [x3f]) x00.
Proof.
  apply (gf_deserialize_spec (repeat xff 31 ++ [x3f]) 0 x00). reflexivity.
Defined.

(** ** Round trip *)

(** C10: serializing a weakly reduced [x] with the high bit and reading the
    bytes back with [with_hibit = 1] and [hi_nmask = 0] succeeds with the
    all-ones mask, gives the strongly reduced representative of [x], and
    that element is [gf_eq] to [x]. *)
Theorem gf_serialize_deserialize x :
  gf_weak x ->
  let serial := gf_serialize x 1 in
  let r := gf_deserialize serial 1 x00 in
  snd r = MASK_ONES /\
  fst r = gf_strong_reduce x /\
  gf_canonical (fst r) /\
  gf_eq (fst r) x = MASK_ONES.
Proof.
  intros Hx. cbv zeta. pose proof (gf_weak_wf x Hx) as Hwf.
  destruct (gf_serialize_facts x 1 Hwf) as [Hlen Hle].
  destruct (gf_deserialize_facts (gf_serialize x 1) 1 x00 Hlen) as [Hw [Hv [Hc Hs]]].
  cbv zeta in *. rewrite (wire_value_unmasked _ Hlen), Hle in *.
  destruct (gf_strong_reduce_facts x Hwf) as [Hl [Hr _]].
  assert (Hp : 0 <= gf_value x mod P25519 < P25519)
    by (apply Z.mod_pos_bound; unfold P25519; lia).
  assert (Hlt : gf_value x mod P25519 < 2 ^ 255) by (unfold P25519 in *; lia).
  assert (E : fst (gf_deserialize (gf_serialize x 1) 1 x00) = gf_strong_reduce x).
  { apply limbs_below_inj; [apply Hc; exact Hlt | exact Hl | congruence]. }
  split; [|split; [exact E|split]].
  - rewrite Hs. destruct (Z.ltb_spec (gf_value x mod P25519) P25519); [reflexivity | lia].
  - destruct (Hc Hlt) as [Hcl Hcf]. split; [exact Hcl|]. split; [exact Hcf|].
    rewrite Hv. exact Hp.
  - rewrite (gf_eq_value _ x Hw Hx), Hv.
    rewrite Z.mod_mod by (unfold P25519; lia). rewrite Z.eqb_refl. reflexivity.
Qed.

Lemma gf_serialize_deserialize_witness :
  snd (gf_deserialize
         (gf_serialize [2 ^ 52 - 1; 2 ^ 52 - 1; 2 ^ 52 - 1; 2 ^ 52 - 1; 2 ^ 52 - 1] 1)
         1 x00) = MASK_ONES.
Proof.
  apply (gf_serialize_deserialize
           [2 ^ 52 - 1; 2 ^ 52 - 1; 2 ^ 52 - 1; 2 ^ 52 - 1; 2 ^ 52 - 1]).
  split; [reflexivity | repeat constructor; cbv; congruence].
Defined.

(** ** The modulus is prime *)

Lemma no_divisor_from_sound fuel : forall d n,
  no_divisor_from fuel d n = true -> 2 <= d ->
  forall k, d <= k -> k * k <= n -> ~ (k | n).
Proof.
  induction fuel as [|fuel IH]; intros d n H Hd k Hk Hkk; cbn [no_divisor_from] in H.
  - discriminate H.
  - destruct (Z.ltb_spec n (d * d)) as [L|L]; [nia|].
    destruct (Z.eqb_spec (n mod d) 0) as [E|E]; [discriminate H|].
    destruct (Z.eq_dec k d) as [->|Hne].
    + intros D. apply E. apply Z.mod_divide; [lia | exact D].
    + apply (IH (d + 1) n H); lia.
Qed.

Lemma small_prime_sound n : small_prime n = true -> Z.prime n.
Proof.
  unfold small_prime. intros H.
  destruct ((1 <? n) && (n <? 65536)) eqn:G; [|discriminate H].
  apply andb_prop in G. destruct G as [H1 _]. rename H into H2.
  apply Z.ltb_lt in H1. split; [exact H1|].
  intros k Hk [m Hm].
  assert (Hm' : 1 < m < n) by nia.
  destruct (Z.le_gt_cases (k * k) n) as [L|L].
  - apply (no_divisor_from_sound _ _ _ H2 ltac:(lia) k); [lia | exact L|].
    exists m. exact Hm.
  - apply (no_divisor_from_sound _ _ _ H2 ltac:(lia) m); [lia | nia|].
    exists k. lia.
Qed.

Lemma prime_factor_exists n : 1 < n -> exists r, Z.prime r /\ (r | n).
Proof.
  intros Hn. assert (H0 : 0 <= n) by lia. revert Hn.
  pattern n. apply Z_lt_induction; [|exact H0]. clear n H0.
  intros n IH Hn.
  destruct (prime_dec n) as [Hp|Hp].
  - exists n. split; [apply prime_alt; exact Hp | apply Z.divide_refl].
  - destruct (not_prime_divide n Hn Hp) as (m & Hm & Hd).
    destruct (IH m ltac:(lia) ltac:(lia)) as (r & Hr & Hrm).
    exists r. split; [exact Hr | apply (Z.divide_trans _ m); assumption].
Qed.

Lemma pow_mod_one r x k : 1 < r -> 0 <= k -> x mod r = 1 -> x ^ k mod r = 1.
Proof.
  intros Hr Hk Hx. rewrite <- Z.mod_pow_l, Hx, Z.pow_1_l by lia.
  apply Z.mod_small. lia.
Qed.

(** Exponents of [a] giving 1 modulo [r] are closed under gcd, by Euclid's
    algorithm on the exponents. *)
Lemma pow_mod_gcd r a : 1 < r -> forall n, 0 <= n -> forall m, 0 <= m ->
  a ^ m mod r = 1 -> a ^ n mod r = 1 -> a ^ Z.gcd m n mod r = 1.
Proof.
  intros Hr n Hn. pattern n. apply Z_lt_induction; [|exact Hn]. clear n Hn.
  intros n IH m Hm Em En.
  destruct (Z.eq_dec n 0) as [->|Hn0].
  - rewrite Z.gcd_0_r, Z.abs_eq by lia. exact Em.
  - assert (Hn : 0 < n).
    { destruct (Z.lt_trichotomy n 0) as [L|[L|L]]; [|lia|exact L].
      rewrite Z.pow_neg_r in En by lia. rewrite Z.mod_0_l in En by lia. discriminate En. }
    pose proof (Z.mod_pos_bound m n Hn) as Bm.
    rewrite Z.gcd_comm, <- Z.gcd_mod, Z.gcd_comm by lia.
    apply IH; [lia | lia | exact En |].
    pose proof (Z.div_mod m n ltac:(lia)) as D.
    assert (0 <= m / n) by (apply Z.div_pos; lia).
    rewrite D, Z.pow_add_r, Z.pow_mul_r in Em by lia.
    rewrite <- Z.mul_mod_idemp_l, (pow_mod_one r (a ^ n) (m / n)) in Em by lia.
    rewrite Z.mul_1_l in Em. exact Em.
Qed.

Lemma coprime_mul_divide a b c :
  Z.coprime a b -> (a | c) -> (b | c) -> (a * b | c).
Proof.
  intros Hc [k Hk] Hb. subst c.
  assert (Hbk : (b | k)).
  { apply (Z.gauss b a k); [rewrite Z.mul_comm; exact Hb|].
    unfold Z.coprime in Hc. rewrite Z.gcd_comm. exact Hc. }
  destruct Hbk as [k' ->]. exists k'. ring.
Qed.

Lemma prime_divide_product q l :
  Z.prime q -> Forall Z.prime l -> (q | fold_right Z.mul 1 l) -> In q l.
Proof.
  intros Hq Hl. induction Hl as [|p t Hp Ht IH]; cbn [fold_right]; intros D.
  - destruct Hq as [Hq _]. apply Z.divide_1_r in D. lia.
  - apply (Z.divide_prime_mul _ _ _ Hq) in D. destruct D as [D|D].
    + left. symmetry. apply Z.divide_prime_prime; assumption.
    + right. apply IH. exact D.
Qed.

Lemma distinct_head a t : distinct (a :: t) = true -> ~ In a t /\ distinct t = true.
Proof.
  cbn [distinct]. intros H. apply andb_prop in H. destruct H as [H1 H2].
  split; [|exact H2]. intros Hin.
  apply negb_true_iff in H1.
  assert (E : existsb (Z.eqb a) t = true).
  { apply existsb_exists. exists a. split; [exact Hin | apply Z.eqb_refl]. }
  congruence.
Qed.

Lemma product_divides qs c :
  Forall Z.prime qs -> distinct qs = true -> Forall (fun q => (q | c)) qs ->
  (fold_right Z.mul 1 qs | c).
Proof.
  intros Hp. induction Hp as [|q t Hq Ht IH]; intros Hd Hc; cbn [fold_right].
  - apply Z.divide_1_l.
  - apply distinct_head in Hd. destruct Hd as [Hnin Hd].
    apply Forall_cons_iff in Hc. destruct Hc as [Hqc Htc].
    apply coprime_mul_divide; [| exact Hqc | apply IH; assumption].
    apply Z.coprime_prime_l; [exact Hq|].
    intros D. apply Hnin. apply prime_divide_product; assumption.
Qed.

Lemma product_pos qs : Forall Z.prime qs -> 0 < fold_right Z.mul 1 qs.
Proof.
  intros H. induction H as [|q t Hq Ht IH]; cbn [fold_right]; [lia|].
  pose proof (Z.prime_ge_2 _ Hq). nia.
Qed.

Section Pocklington.
Variables N a : Z.
Hypothesis HN : 1 < N.
Hypothesis Hpow : a ^ (N - 1) mod N = 1.

Lemma pocklington_divisor q r :
  Z.prime q -> (q | N - 1) ->
  Z.gcd (a ^ ((N - 1) / q) mod N - 1) N = 1 ->
  Z.prime r -> (r | N) -> (q | r - 1).
Proof.
  intros Hq Hqd Hg Hr Hrd.
  pose proof (Z.prime_ge_2 _ Hr) as Hr2. pose proof (Z.prime_ge_2 _ Hq) as Hq2.
  assert (Hmodr : forall x, (x mod N) mod r = x mod r).
  { intros x. apply Z.mod_mod_divide. exact Hrd. }
  assert (E1 : a ^ (N - 1) mod r = 1).
  { rewrite <- Hmodr, Hpow. apply Z.mod_small. lia. }
  assert (Ha : a mod r <> 0).
  { intros Ha. rewrite <- Z.mod_pow_l, Ha, Z.pow_0_l, Z.mod_0_l in E1 by lia.
    discriminate E1. }
  pose proof (Z.fermat_nz r a Hr Ha) as E2.
  pose proof (pow_mod_gcd r a ltac:(lia) (r - 1) ltac:(lia) (N - 1) ltac:(lia) E1 E2)
    as Eg.
  set (g := Z.gcd (N - 1) (r - 1)) in *.
  assert (Hg1 : (g | N - 1)) by apply Z.gcd_divide_l.
  assert (Hg2 : (g | r - 1)) by apply Z.gcd_divide_r.
  assert (Hgpos : 0 < g).
  { pose proof (Z.gcd_nonneg (N - 1) (r - 1)).
    destruct (Z.eq_dec g 0) as [E|E]; [|fold g in H; lia].
    apply Z.gcd_eq_0_l in E. lia. }
  destruct (Z.BoolSpec_divide q (r - 1)) as [D|D]; [exact D|]. exfalso.
  assert (Hqg : ~ (q | g)) by (intros C; apply D; apply (Z.divide_trans _ g); assumption).
  pose proof (Z.coprime_prime_l q g Hq Hqg) as Hcop.
  destruct Hqd as [m Hm].
  assert (Em : (N - 1) / q = m) by (rewrite Hm; apply Z.div_mul; lia).
  rewrite Em in Hg.
  assert (Hgm : (g | m)).
  { apply (Z.gauss g q m); [rewrite Z.mul_comm, <- Hm; exact Hg1|].
    unfold Z.coprime in Hcop. rewrite Z.gcd_comm. exact Hcop. }
  destruct Hgm as [k Hk].
  assert (0 <= k) by nia.
  assert (E3 : a ^ m mod r = 1).
  { rewrite Hk, Z.mul_comm, Z.pow_mul_r by lia. apply pow_mod_one; [lia | lia | exact Eg]. }
  assert (Hd1 : (r | a ^ m mod N - 1)).
  { apply Z.mod_divide; [lia|].
    rewrite <- Zminus_mod_idemp_l, Hmodr, E3. reflexivity. }
  pose proof (Z.gcd_greatest _ _ _ Hd1 Hrd) as Hd. rewrite Hg in Hd.
  apply Z.divide_1_r in Hd. lia.
Qed.

Theorem pocklington qs :
  Forall Z.prime qs -> distinct qs = true ->
  (fold_right Z.mul 1 qs | N - 1) ->
  N < fold_right Z.mul 1 qs * fold_right Z.mul 1 qs ->
  Forall (fun q => Z.gcd (a ^ ((N - 1) / q) mod N - 1) N = 1) qs ->
  Z.prime N.
Proof.
  intros Hp Hd HF Hlt Hg. set (F := fold_right Z.mul 1 qs) in *.
  assert (Hbig : forall r, Z.prime r -> (r | N) -> N < r * r).
  { intros r Hr Hrd. pose proof (Z.prime_ge_2 _ Hr).
    assert (HFr : (F | r - 1)).
    { apply product_divides; [exact Hp | exact Hd|].
      apply Forall_forall. intros q Hq.
      apply pocklington_divisor; [| | | exact Hr | exact Hrd].
      - apply (proj1 (Forall_forall _ _) Hp q Hq).
      - apply (Z.divide_trans _ F); [|exact HF].
        clear - Hq. unfold F. induction qs as [|h t IH]; [destruct Hq|].
        cbn [fold_right]. destruct Hq as [->|Hq].
        + apply Z.divide_factor_l.
        + apply Z.divide_mul_r. apply IH. exact Hq.
      - apply (proj1 (Forall_forall _ _) Hg q Hq). }
    pose proof (product_pos qs Hp) as HFpos. fold F in HFpos.
    apply Z.divide_pos_le in HFr; [|lia]. nia. }
  split; [exact HN|]. intros n Hn [m Hm].
  assert (Hm' : 1 < m < N) by nia.
  destruct (prime_factor_exists n ltac:(lia)) as (r & Hr & Hrn).
  destruct (prime_factor_exists m ltac:(lia)) as (s & Hs & Hsm).
  pose proof (Z.prime_ge_2 _ Hr). pose proof (Z.prime_ge_2 _ Hs).
  assert (Hrle : r <= n) by (apply Z.divide_pos_le; [lia | exact Hrn]).
  assert (Hsle : s <= m) by (apply Z.divide_pos_le; [lia | exact Hsm]).
  assert (HrN : (r | N)).
  { apply (Z.divide_trans _ n); [exact Hrn|]. exists m. exact Hm. }
  assert (HsN : (s | N)).
  { apply (Z.divide_trans _ m); [exact Hsm|]. exists n. lia. }
  pose proof (Hbig r Hr HrN). pose proof (Hbig s Hs HsN).
  assert (r * r <= n * n) by nia. assert (s * s <= m * m) by nia.
  assert (m < n) by nia. assert (n < m) by nia. lia.
Qed.
End Pocklington.

Lemma pocklington_check_sound known c :
  Forall Z.prime known -> pocklington_check known c = true ->
  Z.prime (line_number c).
Proof.
  intros Hk. destruct c as [[N a] qs]. unfold pocklington_check, line_number.
  cbn [fst]. intros H.
  apply andb_prop in H. destruct H as [H Cgcd].
  apply andb_prop in H. destruct H as [H Cpow].
  apply andb_prop in H. destruct H as [H Cprime].
  apply andb_prop in H. destruct H as [H Cdist].
  apply andb_prop in H. destruct H as [H Clt].
  apply andb_prop in H. destruct H as [CN Cdiv].
  apply Z.ltb_lt in CN. apply Z.ltb_lt in Clt.
  apply Z.eqb_eq in Cdiv. apply Z.eqb_eq in Cpow.
  rewrite Zpow_mod_correct in Cpow by lia.
  assert (HF : fold_right Z.mul 1 qs <> 0) by nia.
  apply (pocklington N a CN Cpow qs).
  - apply Forall_forall. intros q Hq.
    apply (proj1 (forallb_forall _ _) Cprime) in Hq.
    destruct (existsb (Z.eqb q) known) eqn:Ex.
    + apply existsb_exists in Ex. destruct Ex as (q' & Hin & E).
      apply Z.eqb_eq in E. subst q'.
      apply (proj1 (Forall_forall _ _) Hk q Hin).
    + apply small_prime_sound. exact Hq.
  - exact Cdist.
  - apply Z.mod_divide; [exact HF | exact Cdiv].
  - exact Clt.
  - apply Forall_forall. intros q Hq.
    apply (proj1 (forallb_forall _ _) Cgcd) in Hq.
    apply Z.eqb_eq in Hq. rewrite Zpow_mod_correct in Hq by lia. exact Hq.
Qed.

Lemma check_certificate_sound cs : forall known,
  Forall Z.prime known -> check_certificate known cs = true ->
  Forall (fun c => Z.prime (line_number c)) cs.
Proof.
  induction cs as [|c cs IH]; intros known Hk H; [constructor|].
  cbn [check_certificate] in H. apply andb_prop in H. destruct H as [H1 H2].
  pose proof (pocklington_check_sound known c Hk H1) as Hc.
  constructor; [exact Hc|].
  apply (IH (line_number c :: known)); [constructor; assumption | exact H2].
Qed.

Lemma P25519_certificate_checks : check_certificate [] P25519_certificate = true.
Proof. vm_compute. reflexivity. Qed.

Theorem P25519_prime : Z.prime P25519.
Proof.
  pose proof (check_certificate_sound P25519_certificate [] (Forall_nil _)
                P25519_certificate_checks) as H.
  apply (proj1 (Forall_forall _ _) H
           (57896044618658097711785492504343953926634992332820282019728792003956564819949,
            2, [74058212732561358302231226437062788676166966415465897661863160754340907])).
  unfold P25519_certificate. repeat (first [left; reflexivity | right]).
Qed.

(** ** Arithmetic modulo p *)

Lemma P25519_pos : 0 < P25519.
Proof. reflexivity. Qed.

Lemma mod_mul_congr a a' b b' :
  a mod P25519 = a' mod P25519 -> b mod P25519 = b' mod P25519 ->
  (a * b) mod P25519 = (a' * b') mod P25519.
Proof. intros Ha Hb. rewrite Z.mul_mod, Ha, Hb, <- Z.mul_mod by discriminate. reflexivity. Qed.

Lemma mod_pow_congr a a' e :
  a mod P25519 = a' mod P25519 -> a ^ e mod P25519 = a' ^ e mod P25519.
Proof. intros Ha. rewrite <- Z.mod_pow_l, Ha, Z.mod_pow_l. reflexivity. Qed.

Lemma divide_small_zero z : (P25519 | z) -> - P25519 < z < P25519 -> z = 0.
Proof.
  intros [k Hk] Hz. pose proof P25519_pos as Hp.
  destruct (Z.lt_trichotomy k 0) as [L|[L|L]].
  - assert (k * P25519 <= -1 * P25519) by (apply Z.mul_le_mono_nonneg_r; lia). lia.
  - subst k. lia.
  - assert (1 * P25519 <= k * P25519) by (apply Z.mul_le_mono_nonneg_r; lia). lia.
Qed.

Lemma SQRT_MINUS_ONE_square :
  (gf_value SQRT_MINUS_ONE * gf_value SQRT_MINUS_ONE) mod P25519 = P25519 - 1.
Proof. vm_compute. reflexivity. Qed.

Lemma pow_zero_mod v e : 0 < e -> v mod P25519 = 0 -> v ^ e mod P25519 = 0.
Proof.
  intros He Hv. rewrite <- Z.mod_pow_l, Hv, Z.pow_0_l by lia. reflexivity.
Qed.

(** The fourth roots of unity modulo p are 1, -1, i and -i. *)
Lemma fourth_root_cases t :
  0 <= t < P25519 -> t ^ 4 mod P25519 = 1 ->
  t = 1 \/ t = P25519 - 1 \/ t = gf_value SQRT_MINUS_ONE
  \/ t = P25519 - gf_value SQRT_MINUS_ONE.
Proof.
  intros Ht H4. pose proof P25519_prime as Hp. pose proof P25519_pos as Hpos.
  pose proof SQRT_MINUS_ONE_square as HI.
  set (I := gf_value SQRT_MINUS_ONE) in *.
  assert (BI : 0 < I < P25519) by (vm_compute; split; reflexivity).
  assert (Hm : (P25519 | I * I + 1)).
  { apply Z.mod_divide; [lia|].
    rewrite <- Zplus_mod_idemp_l, HI.
    replace (P25519 - 1 + 1) with (1 * P25519) by lia. apply Z_mod_mult. }
  destruct Hm as [m Hm].
  assert (H4' : (P25519 | t ^ 4 - 1)).
  { apply Z.mod_divide; [lia|].
    rewrite <- Zminus_mod_idemp_l, H4. reflexivity. }
  assert (D : (P25519 | ((t - 1) * (t + 1)) * ((t - I) * (t + I)))).
  { replace (((t - 1) * (t + 1)) * ((t - I) * (t + I)))
      with ((t ^ 4 - 1) - (t * t - 1) * m * P25519).
    - apply Z.divide_sub_r; [exact H4' | apply Z.divide_factor_r].
    - replace ((t - I) * (t + I)) with (t * t - (I * I + 1) + 1) by ring.
      rewrite Hm. ring. }
  apply (Z.divide_prime_mul _ _ _ Hp) in D. destruct D as [D|D];
    apply (Z.divide_prime_mul _ _ _ Hp) in D; destruct D as [D|D].
  - left. apply divide_small_zero in D; lia.
  - right; left. destruct D as [k Hk]. assert (k = 1) by nia. lia.
  - right; right; left. apply divide_small_zero in D; lia.
  - right; right; right. destruct D as [k Hk]. assert (k = 1) by nia. lia.
Qed.

Lemma fermat_P25519 y : y mod P25519 <> 0 -> y ^ (P25519 - 1) mod P25519 = 1.
Proof. intros Hy. apply Z.fermat_nz; [apply P25519_prime | exact Hy]. Qed.

(** ** The reference back-end meets the contract *)

Lemma gf_of_value_facts v :
  limbs_below 51 (gf_of_value v) /\ gf_value (gf_of_value v) = v mod P25519.
Proof.
  unfold gf_of_value. cbv zeta.
  pose proof (Z.mod_pos_bound v P25519 P25519_pos) as B.
  set (w := v mod P25519) in *. clearbody w. unfold P25519 in B.
  cbn [map seq RISTRETTO255_FIELD_LIMBS gf_value].
  change (51 * Z.of_nat 0) with 0. change (51 * Z.of_nat 1) with 51.
  change (51 * Z.of_nat 2) with (51 + 51).
  change (51 * Z.of_nat 3) with (51 + 51 + 51).
  change (51 * Z.of_nat 4) with (51 + 51 + 51 + 51).
  rewrite !pow2_split by lia. rewrite <- !Z.div_div by lia.
  change (2 ^ 0) with 1. rewrite Z.div_1_r.
  carry_chain.
  split; [limbs_solve | lia].
Qed.

Lemma gf_mul_ref_contract : gf_mul_contract gf_mul_ref.
Proof.
  intros a b _ _. unfold gf_mul_ref.
  destruct (gf_of_value_facts (gf_value a * gf_value b)) as [Hl Hv].
  split.
  - destruct Hl as [Hlen Hall]. split; [exact Hlen|].
    eapply Forall_impl; [|exact Hall]. cbv beta. lia.
  - rewrite Hv. apply Z.mod_mod. discriminate.
Qed.

Lemma gf_sqr_ref_contract : gf_sqr_contract gf_sqr_ref.
Proof. intros a Ha. apply (gf_mul_ref_contract a a Ha Ha). Qed.

(** ** Conditional select *)

Lemma land_ones_word l : 0 <= l < 2 ^ 64 -> Z.land MASK_ONES l = l.
Proof.
  intros Hl. change MASK_ONES with (Z.ones 64).
  rewrite Z.land_comm, Z.land_ones by lia. apply Z.mod_small. lia.
Qed.

Lemma constant_time_select_ones f t :
  gf_wf f -> gf_wf t -> constant_time_select f t MASK_ONES = t.
Proof.
  intros Hf Ht. gf_destruct f Hf. gf_destruct t Ht.
  unfold constant_time_select. loops_unfold.
  change (u64 (Z.lnot MASK_ONES)) with 0.
  rewrite !Z.land_0_l, !Z.lor_0_r, !land_ones_word by lia. reflexivity.
Qed.

Lemma constant_time_select_zero f t :
  gf_wf f -> gf_wf t -> constant_time_select f t MASK_ZERO = f.
Proof.
  intros Hf Ht. gf_destruct f Hf. gf_destruct t Ht.
  unfold constant_time_select. loops_unfold.
  change (u64 (Z.lnot MASK_ZERO)) with MASK_ONES. unfold MASK_ZERO.
  rewrite !Z.land_0_l, !Z.lor_0_l, !land_ones_word by lia. reflexivity.
Qed.

(** ** The addition chain and the result of [gf_isr] *)

Section InverseSquareRootProof.

Variable gf_mul : gf_25519_t -> gf_25519_t -> gf_25519_t.
Variable gf_sqr : gf_25519_t -> gf_25519_t.
Hypothesis Hmul : gf_mul_contract gf_mul.
Hypothesis Hsqr : gf_sqr_contract gf_sqr.

Lemma power_of_mul A B v e1 e2 :
  0 <= e1 -> 0 <= e2 ->
  gf_power_of A v e1 -> gf_power_of B v e2 ->
  gf_power_of (gf_mul A B) v (e1 + e2).
Proof.
  intros H1 H2 [WA EA] [WB EB]. destruct (Hmul A B WA WB) as [W E].
  split; [exact W|]. rewrite E, Z.pow_add_r by assumption.
  apply mod_mul_congr; assumption.
Qed.

Lemma power_of_sqr A v e :
  0 <= e -> gf_power_of A v e -> gf_power_of (gf_sqr A) v (2 * e).
Proof.
  intros H1 [WA EA]. destruct (Hsqr A WA) as [W E].
  split; [exact W|]. replace (2 * e) with (e + e) by lia.
  rewrite E, Z.pow_add_r by assumption.
  apply mod_mul_congr; assumption.
Qed.

Lemma power_of_sqrn A v e n :
  0 <= e -> gf_power_of A v e ->
  gf_power_of (gf_sqrn gf_sqr A n) v (2 ^ Z.of_nat n * e).
Proof.
  intros He HA. unfold gf_sqrn. induction n as [|n IH].
  - cbn [Nat.iter]. change (2 ^ Z.of_nat 0) with 1. rewrite Z.mul_1_l. exact HA.
  - cbn [Nat.iter].
    replace (2 ^ Z.of_nat (S n) * e) with (2 * (2 ^ Z.of_nat n * e)).
    + apply power_of_sqr; [|exact IH].
      apply Z.mul_nonneg_nonneg; [apply Z.pow_nonneg; lia | exact He].
    + rewrite Nat2Z.inj_succ, Z.pow_succ_r by lia. ring.
Qed.

(** Take the next operation of the chain out of the goal and record the
    power it computes. *)
Ltac chain_step v :=
  lazymatch goal with
  | |- ?Q (let y := ?b in @?f y) =>
    let L := fresh "L" in
    change (let y := b in Q (f y)); intro L; cbv beta;
    lazymatch b with
    | gf_sqr ?A =>
      lazymatch goal with
      | HA : gf_power_of A v ?e |- _ =>
        let e' := eval vm_compute in (2 * e) in
        assert (gf_power_of L v e')
          by (apply (power_of_sqr A v e); [discriminate | exact HA])
      end
    | gf_sqrn gf_sqr ?A ?n =>
      lazymatch goal with
      | HA : gf_power_of A v ?e |- _ =>
        let e' := eval vm_compute in (2 ^ Z.of_nat n * e) in
        assert (gf_power_of L v e')
          by (apply (power_of_sqrn A v e n); [discriminate | exact HA])
      end
    | gf_mul ?A ?B =>
      lazymatch goal with
      | HA : gf_power_of A v ?e1, HB : gf_power_of B v ?e2 |- _ =>
        let e' := eval vm_compute in (e1 + e2) in
        assert (gf_power_of L v e')
          by (apply (power_of_mul A B v e1 e2);
              [discriminate | discriminate | exact HA | exact HB])
      end
    end;
    clearbody L
  end.

(** Evaluate the OR of two known masks. *)
Ltac eval_masks :=
  repeat match goal with
  | |- context [Z.lor ?m1 ?m2] =>
    let m := eval vm_compute in (Z.lor m1 m2) in
    change (Z.lor m1 m2) with m
  end.

(** What [gf_isr] computes, in terms of [t = x^((p-1)/4)] and the
    element [r = x^((p-5)/8)]. *)
Lemma gf_isr_unfold x :
  gf_weak x ->
  exists L0 L3,
    gf_power_of L0 (gf_value x) (2 ^ 252 - 3) /\
    gf_power_of L3 (gf_value x) (2 ^ 253 - 5) /\
    gf_isr gf_mul gf_sqr x
    = (gf_mul (constant_time_select SQRT_MINUS_ONE ONE
                 (Z.lor (gf_eq L3 ONE) (gf_eq L3 SQRT_MINUS_ONE))) L0,
       Z.lor (gf_eq L3 ONE) (gf_eq (gf_add L3 ONE) ZERO)).
Proof.
  intros Hx.
  assert (H1 : gf_power_of x (gf_value x) 1).
  { split; [exact Hx|]. rewrite Z.pow_1_r. reflexivity. }
  set (Q := fun r : gf_25519_t * Z => exists L0 L3,
        gf_power_of L0 (gf_value x) (2 ^ 252 - 3) /\
        gf_power_of L3 (gf_value x) (2 ^ 253 - 5) /\
        r = (gf_mul (constant_time_select SQRT_MINUS_ONE ONE
                 (Z.lor (gf_eq L3 ONE) (gf_eq L3 SQRT_MINUS_ONE))) L0,
             Z.lor (gf_eq L3 ONE) (gf_eq (gf_add L3 ONE) ZERO))).
  change (Q (gf_isr gf_mul gf_sqr x)).
  cbv delta [gf_isr]. cbv beta.
  do 24 chain_step (gf_value x).
  subst Q. cbv beta zeta.
  match goal with
  | HA : gf_power_of ?A _ 7237005577332262213973186563042994240829374041602535252466099000494570602493,
    HB : gf_power_of ?B _ 14474011154664524427946373126085988481658748083205070504932198000989141204987
    |- _ => exists A, B; split; [exact HA | split; [exact HB | reflexivity]]
  end.
Qed.


Lemma isr_result S L0 v t :
  gf_weak S -> gf_weak L0 ->
  (gf_value L0 * gf_value L0 * v) mod P25519 = t ->
  let ga := gf_value (gf_mul S L0) in
  gf_weak (gf_mul S L0) /\
  ga mod P25519 = (gf_value S * gf_value L0) mod P25519 /\
  (ga * ga * v) mod P25519 = ((gf_value S * gf_value S) * t) mod P25519.
Proof.
  intros WS W0 Ht. cbv zeta. destruct (Hmul S L0 WS W0) as [W E].
  split; [exact W|]. split; [exact E|].
  rewrite <- Ht, Z.mul_mod_idemp_r by discriminate.
  replace (gf_value S * gf_value S * (gf_value L0 * gf_value L0 * v))
    with ((gf_value S * gf_value L0) * (gf_value S * gf_value L0) * v) by ring.
  apply mod_mul_congr; [|reflexivity].
  apply mod_mul_congr; exact E.
Qed.

Lemma gf_isr_facts x :
  gf_weak x ->
  let a := fst (gf_isr gf_mul gf_sqr x) in
  let ok := snd (gf_isr gf_mul gf_sqr x) in
  let w := (gf_value a * gf_value a * gf_value x) mod P25519 in
  gf_weak a /\
  (gf_value x mod P25519 = 0 -> gf_value a mod P25519 = 0 /\ ok = MASK_ZERO) /\
  (gf_value x mod P25519 <> 0 ->
     (w = 1 \/ w = gf_value SQRT_MINUS_ONE) /\
     (ok = MASK_ONES \/ ok = MASK_ZERO) /\
     (ok = MASK_ONES <-> w = 1) /\
     (ok = MASK_ONES <-> quadratic_residue (gf_value x))).
Proof.
  intros Hx. cbv zeta.
  assert (WONE : gf_weak ONE) by limbs_solve.
  assert (WZERO : gf_weak ZERO) by limbs_solve.
  assert (WSQ : gf_weak SQRT_MINUS_ONE)
    by (split; [reflexivity | repeat constructor; cbv; congruence]).
  destruct (gf_isr_unfold x Hx) as (L0 & L3 & [W0 E0] & [W3 E3] & Eisr).
  rewrite Eisr. cbn [fst snd]. clear Eisr.
  set (v := gf_value x) in *.
  (* the three comparisons, in terms of t *)
  set (t := gf_value L3 mod P25519) in *.
  assert (Hone : gf_eq L3 ONE = if t =? 1 then MASK_ONES else MASK_ZERO).
  { rewrite (gf_eq_value L3 ONE W3 WONE). reflexivity. }
  assert (Hi : gf_eq L3 SQRT_MINUS_ONE
               = if t =? gf_value SQRT_MINUS_ONE then MASK_ONES else MASK_ZERO).
  { rewrite (gf_eq_value L3 SQRT_MINUS_ONE W3 WSQ). reflexivity. }
  assert (Hm1 : gf_eq (gf_add L3 ONE) ZERO
                = if (t + 1) mod P25519 =? 0 then MASK_ONES else MASK_ZERO).
  { destruct (gf_add_spec L3 ONE W3 WONE) as [Ev Wadd].
    rewrite (gf_eq_value _ ZERO Wadd WZERO), Ev.
    change (gf_value ONE) with 1. rewrite <- Zplus_mod_idemp_l. reflexivity. }
  assert (Ht : (gf_value L0 * gf_value L0 * v) mod P25519 = t).
  { rewrite E3.
    replace (2 ^ 253 - 5) with ((2 ^ 252 - 3) + (2 ^ 252 - 3) + 1) by reflexivity.
    rewrite !Z.pow_add_r, Z.pow_1_r by discriminate.
    apply mod_mul_congr; [apply mod_mul_congr; exact E0 | reflexivity]. }
  assert (Bt : 0 <= t < P25519) by (apply Z.mod_pos_bound; reflexivity).
  rewrite Hone, Hi, Hm1. clear Hone Hi Hm1.
  pose proof (isr_result ONE L0 v t WONE W0 Ht) as R1.
  pose proof (isr_result SQRT_MINUS_ONE L0 v t WSQ W0 Ht) as RI.
  cbv zeta in R1, RI.
  destruct R1 as (R1w & R1a & R1v). destruct RI as (RIw & RIa & RIv).
  assert (SelONE : constant_time_select SQRT_MINUS_ONE ONE 18446744073709551615 = ONE)
    by reflexivity.
  assert (SelSQ : constant_time_select SQRT_MINUS_ONE ONE 0 = SQRT_MINUS_ONE)
    by reflexivity.
  split; [|split].
  - (* the result is weakly reduced *)
    destruct (t =? 1); destruct (t =? gf_value SQRT_MINUS_ONE); eval_masks;
      first [rewrite SelONE; exact R1w | rewrite SelSQ; exact RIw].
  - (* x = 0 *)
    intros Hv. assert (Et : t = 0).
    { rewrite E3. apply pow_zero_mod; [reflexivity | exact Hv]. }
    rewrite Et. change (0 =? 1) with false.
    change (0 =? gf_value SQRT_MINUS_ONE) with false.
    change ((0 + 1) mod P25519 =? 0) with false. cbv iota.
    eval_masks. rewrite SelSQ.
    split; [|reflexivity].
    rewrite RIa, Z.mul_mod, E0, (pow_zero_mod v (2 ^ 252 - 3)), Z.mul_0_r
      by (reflexivity || discriminate || exact Hv).
    reflexivity.
  - (* x <> 0 *)
    intros Hv.
    assert (H4 : t ^ 4 mod P25519 = 1).
    { rewrite E3, Z.mod_pow_l, <- Z.pow_mul_r by discriminate.
      change ((2 ^ 253 - 5) * 4) with (P25519 - 1).
      apply fermat_P25519. exact Hv. }
    assert (Hqr : quadratic_residue v -> (t * t) mod P25519 = 1).
    { intros [y Hy].
      assert (Hy0 : y mod P25519 <> 0).
      { intros C. apply Hv. rewrite <- Hy, Z.mul_mod, C by discriminate. reflexivity. }
      rewrite E3, <- Z.mul_mod, <- Z.pow_add_r by discriminate.
      rewrite <- (mod_pow_congr (y * y) v _ Hy).
      replace (y * y) with (y ^ 2) by ring.
      rewrite <- Z.pow_mul_r by discriminate.
      change (2 * (2 ^ 253 - 5 + (2 ^ 253 - 5))) with (P25519 - 1).
      apply fermat_P25519. exact Hy0. }
    assert (Hsq : forall g, (g * g * v) mod P25519 = 1 -> quadratic_residue v).
    { intros g Hg. exists (g * v).
      replace (g * v * (g * v)) with ((g * g * v) * v) by ring.
      rewrite <- Z.mul_mod_idemp_l, Hg, Z.mul_1_l by discriminate. reflexivity. }
    destruct (fourth_root_cases t Bt H4) as [C|[C|[C|C]]]; rewrite C in *;
      match goal with
      | |- context [Z.lor (if ?c1 then _ else _) (if ?c2 then _ else _)] =>
        let b1 := eval vm_compute in c1 in
        let b2 := eval vm_compute in c2 in
        change c1 with b1; change c2 with b2
      end;
      match goal with
      | |- context [constant_time_select _ _
                      (Z.lor _ (if ?c3 then _ else _))] =>
        let b3 := eval vm_compute in c3 in change c3 with b3
      end;
      cbv iota; eval_masks;
      first [rewrite SelONE | rewrite SelSQ].
    + (* t = 1 *)
      assert (W1 : (gf_value (gf_mul ONE L0) * gf_value (gf_mul ONE L0) * v)
                   mod P25519 = 1) by (rewrite R1v; reflexivity).
      rewrite W1. repeat split; auto. intros _. apply (Hsq _ W1).
    + (* t = -1 *)
      assert (W1 : (gf_value (gf_mul SQRT_MINUS_ONE L0)
                    * gf_value (gf_mul SQRT_MINUS_ONE L0) * v) mod P25519 = 1)
        by (rewrite RIv; vm_compute; reflexivity).
      rewrite W1. repeat split; auto. intros _. apply (Hsq _ W1).
    + (* t = i *)
      assert (W1 : (gf_value (gf_mul ONE L0) * gf_value (gf_mul ONE L0) * v)
                   mod P25519 = gf_value SQRT_MINUS_ONE)
        by (rewrite R1v; vm_compute; reflexivity).
      rewrite W1. split; [right; reflexivity|]. split; [right; reflexivity|].
      split; (split; [intros D; discriminate D|]).
      * intros D. vm_compute in D. discriminate D.
      * intros D. apply Hqr in D. vm_compute in D. discriminate D.
    + (* t = -i *)
      assert (W1 : (gf_value (gf_mul SQRT_MINUS_ONE L0)
                    * gf_value (gf_mul SQRT_MINUS_ONE L0) * v) mod P25519
                   = gf_value SQRT_MINUS_ONE)
        by (rewrite RIv; vm_compute; reflexivity).
      rewrite W1. split; [right; reflexivity|]. split; [right; reflexivity|].
      split; (split; [intros D; discriminate D|]).
      * intros D. vm_compute in D. discriminate D.
      * intros D. apply Hqr in D. vm_compute in D. discriminate D.
Qed.

End InverseSquareRootProof.

(** The claim C1 as stated fails at zero: the mask returned for [x = 0] is
    all-zeros, on the reference back-end as on any other. *)
Lemma gf_isr_zero_counterexample :
  ~ (forall gf_mul gf_sqr,
       gf_mul_contract gf_mul -> gf_sqr_contract gf_sqr ->
       forall x, gf_weak x -> gf_value x mod P25519 = 0 ->
         gf_value (fst (gf_isr gf_mul gf_sqr x)) mod P25519 = 0 /\
         snd (gf_isr gf_mul gf_sqr x) = MASK_ONES).
Proof.
  intros H.
  destruct (H gf_mul_ref gf_sqr_ref gf_mul_ref_contract gf_sqr_ref_contract ZERO)
    as [_ C].
  - split; [reflexivity | repeat constructor; cbv; congruence].
  - reflexivity.
  - vm_compute in C. discriminate C.
Qed.

(** C1, amended: for a back-end multiplication and squaring that map weakly
    reduced inputs to a weakly reduced product, and a weakly reduced [x],
    [gf_isr] returns a weakly reduced [a] and a mask [ok] such that: if
    [x = 0] modulo p then [a = 0] modulo p and [ok] is all-zeros; otherwise
    [a^2 x] is 1 or [i], where [i = SQRT_MINUS_ONE] squares to -1 modulo p,
    and [ok] is all-ones when [a^2 x = 1], which is when [x] is a quadratic
    residue, and all-zeros otherwise. *)
Theorem gf_isr_spec gf_mul gf_sqr x :
  gf_mul_contract gf_mul -> gf_sqr_contract gf_sqr -> gf_weak x ->
  let a := fst (gf_isr gf_mul gf_sqr x) in
  let ok := snd (gf_isr gf_mul gf_sqr x) in
  let w := (gf_value a * gf_value a * gf_value x) mod P25519 in
  gf_weak a /\
  (gf_value SQRT_MINUS_ONE * gf_value SQRT_MINUS_ONE) mod P25519 = P25519 - 1 /\
  (gf_value x mod P25519 = 0 -> gf_value a mod P25519 = 0 /\ ok = MASK_ZERO) /\
  (gf_value x mod P25519 <> 0 ->
     (w = 1 \/ w = gf_value SQRT_MINUS_ONE) /\
     (ok = MASK_ONES \/ ok = MASK_ZERO) /\
     (ok = MASK_ONES <-> w = 1) /\
     (ok = MASK_ONES <-> quadratic_residue (gf_value x))).
Proof.
  intros Hmul Hsqr Hx. cbv zeta.
  destruct (gf_isr_facts gf_mul gf_sqr Hmul Hsqr x Hx) as (Hw & H0 & H1).
  split; [exact Hw|]. split; [exact SQRT_MINUS_ONE_square|].
  split; [exact H0 | exact H1].
Qed.

Lemma gf_isr_spec_witness :
  gf_weak (fst (gf_isr gf_mul_ref gf_sqr_ref [4; 0; 0; 0; 0])).
Proof.
  apply (gf_isr_spec gf_mul_ref gf_sqr_ref [4; 0; 0; 0; 0]).
  - exact gf_mul_ref_contract.
  - exact gf_sqr_ref_contract.
  - split; [reflexivity | repeat constructor; cbv; congruence].
Defined.

(** * Further properties of the field code *)

(** ** Addition, subtraction and comparison *)

(** [gf_add] on weakly reduced inputs adds limb by limb without wrap-around
    and returns a weakly reduced element congruent to the sum. *)
Theorem gf_add_correct a b :
  gf_weak a -> gf_weak b ->
  gf_value (gf_add_RAW a b) = gf_value a + gf_value b /\
  gf_weak (gf_add a b) /\
  gf_value (gf_add a b) mod P25519 = (gf_value a + gf_value b) mod P25519.
Proof.
  intros Ha Hb. destruct (gf_add_spec a b Ha Hb) as [Hv Hw].
  split; [|split; assumption].
  gf_destruct a Ha. gf_destruct b Hb. unfold gf_add_RAW. loops_unfold.
  rewrite !u64_small by lia. lia.
Qed.

Lemma gf_add_correct_witness :
  gf_weak (gf_add [2 ^ 52 - 1; 2 ^ 52 - 1; 2 ^ 52 - 1; 2 ^ 52 - 1; 2 ^ 52 - 1]
                  [2 ^ 52 - 1; 2 ^ 52 - 1; 2 ^ 52 - 1; 2 ^ 52 - 1; 2 ^ 52 - 1]).
Proof.
  refine (proj1 (proj2 (gf_add_correct
           [2 ^ 52 - 1; 2 ^ 52 - 1; 2 ^ 52 - 1; 2 ^ 52 - 1; 2 ^ 52 - 1]
           [2 ^ 52 - 1; 2 ^ 52 - 1; 2 ^ 52 - 1; 2 ^ 52 - 1; 2 ^ 52 - 1] _ _)));
    (split; [reflexivity | repeat constructor; cbv; congruence]).
Defined.

Lemma u64_sub_add x y : 0 <= x < 2 ^ 64 -> u64 (u64 (x - y) + y) = x.
Proof.
  intros Hx. unfold u64, wrap. change RISTRETTO_WORD_BITS with 64.
  rewrite Zplus_mod_idemp_l. replace (x - y + y) with x by lia.
  apply Z.mod_small. exact Hx.
Qed.

Lemma u64_add_sub x y : 0 <= x < 2 ^ 64 -> u64 (u64 (x + y) - y) = x.
Proof.
  intros Hx. unfold u64, wrap. change RISTRETTO_WORD_BITS with 64.
  rewrite Zminus_mod_idemp_l. replace (x + y - y) with x by lia.
  apply Z.mod_small. exact Hx.
Qed.

(** The raw limb operations undo each other on any 64-bit limbs, wrap-around
    included. *)
Theorem gf_add_sub_RAW_inverse a b :
  gf_wf a -> gf_wf b ->
  gf_add_RAW (gf_sub_RAW a b) b = a /\ gf_sub_RAW (gf_add_RAW a b) b = a.
Proof.
  intros Ha Hb. gf_destruct a Ha. gf_destruct b Hb.
  unfold gf_add_RAW, gf_sub_RAW. loops_unfold.
  rewrite !u64_sub_add, !u64_add_sub by assumption.
  split; reflexivity.
Qed.

Lemma gf_add_sub_RAW_inverse_witness :
  gf_add_RAW (gf_sub_RAW [0; 1; 2; 3; 4] [5; 6; 7; 8; 9]) [5; 6; 7; 8; 9]
  = [0; 1; 2; 3; 4].
Proof.
  refine (proj1 (gf_add_sub_RAW_inverse [0; 1; 2; 3; 4] [5; 6; 7; 8; 9] _ _));
    (split; [reflexivity | repeat constructor; cbv; congruence]).
Defined.

(** [gf_eq] is an equivalence on weakly reduced elements. *)
Theorem gf_eq_equivalence a b c :
  gf_weak a -> gf_weak b -> gf_weak c ->
  gf_eq a a = MASK_ONES /\
  gf_eq a b = gf_eq b a /\
  (gf_eq a b = MASK_ONES -> gf_eq b c = MASK_ONES -> gf_eq a c = MASK_ONES).
Proof.
  intros Ha Hb Hc.
  rewrite (gf_eq_value a a Ha Ha), (gf_eq_value a b Ha Hb), (gf_eq_value b a Hb Ha),
    (gf_eq_value b c Hb Hc), (gf_eq_value a c Ha Hc).
  rewrite Z.eqb_refl, (Z.eqb_sym (gf_value b mod P25519)).
  split; [reflexivity|]. split; [reflexivity|].
  destruct (Z.eqb_spec (gf_value a mod P25519) (gf_value b mod P25519)) as [E1|E1];
    [|intros D; discriminate D].
  destruct (Z.eqb_spec (gf_value b mod P25519) (gf_value c mod P25519)) as [E2|E2];
    [|intros _ D; discriminate D].
  rewrite E1, E2, Z.eqb_refl. reflexivity.
Qed.

Lemma gf_eq_equivalence_witness :
  gf_eq [7; 0; 0; 0; 0] [7; 0; 0; 0; 0] = MASK_ONES.
Proof.
  refine (proj1 (gf_eq_equivalence [7; 0; 0; 0; 0] [7; 0; 0; 0; 0] [7; 0; 0; 0; 0] _ _ _));
    (split; [reflexivity | repeat constructor; cbv; congruence]).
Defined.

(** Subtraction undoes addition and conversely, up to [gf_eq], and [a - a]
    is zero. *)
Theorem gf_add_sub_cancel a b :
  gf_weak a -> gf_weak b ->
  gf_eq (gf_add (gf_sub a b) b) a = MASK_ONES /\
  gf_eq (gf_sub (gf_add a b) b) a = MASK_ONES /\
  gf_eq (gf_sub a a) ZERO = MASK_ONES.
Proof.
  intros Ha Hb.
  pose proof (gf_sub_weak a b Ha Hb) as Ws.
  destruct (gf_add_spec a b Ha Hb) as [Va Wa].
  destruct (gf_add_spec _ b Ws Hb) as [V1 W1].
  pose proof (gf_sub_weak _ b Wa Hb) as W2.
  pose proof (gf_sub_weak a a Ha Ha) as W3.
  assert (WZ : gf_weak ZERO) by limbs_solve.
  rewrite (gf_eq_value _ a W1 Ha), (gf_eq_value _ a W2 Ha), (gf_eq_value _ ZERO W3 WZ).
  rewrite V1, <- Zplus_mod_idemp_l, (gf_sub_mod a b Ha Hb), Zplus_mod_idemp_l.
  rewrite (gf_sub_mod _ b Wa Hb), <- Zminus_mod_idemp_l, Va, Zminus_mod_idemp_l.
  rewrite (gf_sub_mod a a Ha Ha).
  replace (gf_value a - gf_value b + gf_value b) with (gf_value a) by lia.
  replace (gf_value a + gf_value b - gf_value b) with (gf_value a) by lia.
  rewrite Z.sub_diag, Z.eqb_refl. repeat split; reflexivity.
Qed.

Lemma gf_add_sub_cancel_witness :
  gf_eq (gf_sub [1; 0; 0; 0; 0] [1; 0; 0; 0; 0]) ZERO = MASK_ONES.
Proof.
  refine (proj2 (proj2 (gf_add_sub_cancel [1; 0; 0; 0; 0] [1; 0; 0; 0; 0] _ _)));
    (split; [reflexivity | repeat constructor; cbv; congruence]).
Defined.

(** ** Reductions *)

(** [gf_weak_reduce] leaves limbs that are already below [2^51] unchanged. *)
Theorem gf_weak_reduce_fixed a : limbs_below 51 a -> gf_weak_reduce a = a.
Proof.
  intros H. gf_destruct a H. unfold gf_weak_reduce. loops_unfold.
  rewrite !land_mask51, !shiftr51.
  rewrite !Z.div_small, !Z.mod_small by lia.
  repeat match goal with
  | |- context [u64 ?x] => pure_term x; rewrite (u64_small x) by lia
  end.
  repeat (f_equal; try lia).
Qed.

Lemma gf_weak_reduce_fixed_witness : gf_weak_reduce MODULUS = MODULUS.
Proof.
  apply (gf_weak_reduce_fixed MODULUS).
  split; [reflexivity | repeat constructor; cbv; congruence].
Defined.

(** The two assertions of [gf_strong_reduce] hold for every input: after the
    subtraction the carry is 0 or -1, and the addition cancels it. *)
Theorem gf_strong_reduce_asserts_hold a :
  gf_wf a -> gf_strong_reduce_asserts a = (MASK_ONES, MASK_ONES).
Proof. intros H. apply (gf_strong_reduce_facts a H). Qed.

Lemma gf_strong_reduce_asserts_hold_witness :
  gf_strong_reduce_asserts [2 ^ 64 - 1; 2 ^ 64 - 1; 2 ^ 64 - 1; 2 ^ 64 - 1; 2 ^ 64 - 1]
  = (MASK_ONES, MASK_ONES).
Proof.
  apply (gf_strong_reduce_asserts_hold
           [2 ^ 64 - 1; 2 ^ 64 - 1; 2 ^ 64 - 1; 2 ^ 64 - 1; 2 ^ 64 - 1]).
  split; [reflexivity | repeat constructor; cbv; congruence].
Defined.

(** [gf_strong_reduce] is idempotent, fixes canonical elements, and gives
    the zero element exactly on the multiples of p. *)
Theorem gf_strong_reduce_idempotent a :
  gf_wf a ->
  gf_strong_reduce (gf_strong_reduce a) = gf_strong_reduce a /\
  (gf_canonical a -> gf_strong_reduce a = a) /\
  (gf_strong_reduce a = ZERO <-> gf_value a mod P25519 = 0).
Proof.
  intros H. destruct (gf_strong_reduce_facts a H) as [Hl [Hv _]].
  assert (Hp : 0 < P25519) by reflexivity.
  pose proof (limbs_below_wf 51 _ ltac:(lia) Hl) as Hwf.
  destruct (gf_strong_reduce_facts _ Hwf) as [Hl2 [Hv2 _]].
  split; [|split].
  - apply limbs_below_inj; [exact Hl2 | exact Hl|].
    rewrite Hv2, Hv. apply Z.mod_mod. lia.
  - intros [Hlen [Hall Hr]]. apply limbs_below_inj; [exact Hl | split; assumption|].
    rewrite Hv. apply Z.mod_small. exact Hr.
  - split; intros E.
    + rewrite <- Hv, E. reflexivity.
    + apply limbs_below_zero; [exact Hl | congruence].
Qed.

Lemma gf_strong_reduce_idempotent_witness :
  gf_strong_reduce (gf_strong_reduce MODULUS) = gf_strong_reduce MODULUS.
Proof.
  refine (proj1 (gf_strong_reduce_idempotent MODULUS _)).
  split; [reflexivity | repeat constructor; cbv; congruence].
Defined.

(** ** Wire format *)

Lemma byte_val_inj a b : byte_val a = byte_val b -> a = b.
Proof.
  unfold byte_val. intros E. apply N2Z.inj in E.
  pose proof (Byte.of_to_N a) as Ha. pose proof (Byte.of_to_N b) as Hb.
  rewrite E in Ha. congruence.
Qed.

Lemma le_value_inj l1 : forall l2,
  length l1 = length l2 -> le_value l1 = le_value l2 -> l1 = l2.
Proof.
  induction l1 as [|a t IH]; intros [|b u] Hlen E; cbn [length] in Hlen;
    try discriminate Hlen; [reflexivity|].
  cbn [le_value] in E.
  pose proof (byte_val_range a). pose proof (byte_val_range b).
  assert (byte_val a = byte_val b) by lia.
  assert (le_value t = le_value u) by lia.
  f_equal; [apply byte_val_inj; assumption | apply IH; [lia | assumption]].
Qed.

Lemma le_value_last serial :
  length serial = SER_BYTES ->
  le_value serial = le_value (firstn 31 serial) + 2 ^ 248 * byte_val (nth 31 serial x00)
  /\ 0 <= le_value (firstn 31 serial) < 2 ^ 248.
Proof.
  intros Hlen.
  do 32 (destruct serial as [|? serial]; [discriminate Hlen|]).
  destruct serial; [|discriminate Hlen]. clear Hlen.
  cbn [nth firstn le_value].
  repeat match goal with
  | b : byte |- _ => pose proof (byte_val_range b); generalize dependent (byte_val b);
                     clear b; intros
  end.
  lia.
Qed.

Lemma land_lnot_sub b h : Z.land b (Z.lnot h) = b - Z.land b h.
Proof.
  rewrite <- Z.ldiff_land.
  assert (D : Z.land (Z.ldiff b h) (Z.land b h) = 0).
  { apply Z.bits_inj'. intros n Hn.
    rewrite Z.land_spec, Z.ldiff_spec, Z.land_spec, Z.bits_0.
    destruct (Z.testbit b n), (Z.testbit h n); reflexivity. }
  pose proof (Z.add_nocarry_lxor _ _ D) as A.
  rewrite (Z.lxor_lor _ _ D), Z.lor_ldiff_and in A. lia.
Qed.

Lemma gf_wf_value_nonneg a : gf_wf a -> 0 <= gf_value a.
Proof. intros H. gf_destruct a H. cbn [gf_value]. lia. Qed.

(** Where its assertion holds, the bytes written by [gf_serialize] are the
    32 little-endian digits of the residue of [x], with the top bit of the
    last byte clear; two elements get the same bytes exactly when they have
    the same residue. *)
Theorem gf_serialize_canonical x y with_hibit with_hibit' :
  gf_wf x -> gf_wf y ->
  gf_serialize_assert x with_hibit = true ->
  gf_serialize_assert y with_hibit' = true ->
  length (gf_serialize x with_hibit) = SER_BYTES /\
  le_value (gf_serialize x with_hibit) = gf_value x mod P25519 /\
  byte_val (nth 31 (gf_serialize x with_hibit) x00) < 128 /\
  (gf_serialize x with_hibit = gf_serialize y with_hibit'
   <-> gf_value x mod P25519 = gf_value y mod P25519).
Proof.
  intros Hx Hy _ _.
  destruct (gf_serialize_facts x with_hibit Hx) as [Lx Vx].
  destruct (gf_serialize_facts y with_hibit' Hy) as [Ly Vy].
  split; [exact Lx|]. split; [exact Vx|]. split.
  - destruct (le_value_last _ Lx) as [E B]. rewrite Vx in E.
    pose proof (Z.mod_pos_bound (gf_value x) P25519 ltac:(reflexivity)) as Bp.
    unfold P25519 in *. lia.
  - split; intros E.
    + rewrite <- Vx, <- Vy, E. reflexivity.
    + apply le_value_inj; [rewrite Lx, Ly; reflexivity | rewrite Vx, Vy; exact E].
Qed.

Lemma gf_serialize_canonical_witness :
  gf_serialize MODULUS 1 = gf_serialize ZERO 0
  <-> gf_value MODULUS mod P25519 = gf_value ZERO mod P25519.
Proof.
  refine (proj2 (proj2 (proj2 (gf_serialize_canonical MODULUS ZERO 1 0 _ _ _ _)))).
  - split; [reflexivity | repeat constructor; cbv; congruence].
  - split; [reflexivity | repeat constructor; cbv; congruence].
  - reflexivity.
  - vm_compute. reflexivity.
Defined.

(** Whatever the bytes, [gf_deserialize] leaves a weakly reduced element in
    [x] holding the value read, and returns one of the two masks; on success
    [x] is canonical. *)
Theorem gf_deserialize_total serial with_hibit hi_nmask :
  length serial = SER_BYTES ->
  let r := gf_deserialize serial with_hibit hi_nmask in
  gf_weak (fst r) /\
  gf_value (fst r) = wire_value serial hi_nmask /\
  (snd r = MASK_ONES \/ snd r = MASK_ZERO) /\
  (snd r = MASK_ONES -> gf_canonical (fst r)).
Proof.
  intros Hlen. cbv zeta.
  destruct (gf_deserialize_facts serial with_hibit hi_nmask Hlen) as (Hw & Hv & Hc & Hs).
  cbv zeta in *. split; [exact Hw|]. split; [exact Hv|]. rewrite Hs.
  destruct (Z.ltb_spec (wire_value serial hi_nmask) P25519) as [L|L]; cbn [andb].
  - assert (Hcan : gf_canonical (fst (gf_deserialize serial with_hibit hi_nmask))).
    { destruct Hc as [Hlen' Hall]; [unfold P25519 in L; lia|].
      split; [exact Hlen'|]. split; [exact Hall|]. rewrite Hv.
      split; [|exact L].
      rewrite <- Hv. apply gf_wf_value_nonneg, gf_weak_wf. exact Hw. }
    split; [|intros _; exact Hcan].
    destruct (negb (with_hibit =? 0)
              || Z.even ((2 * wire_value serial hi_nmask) mod P25519));
      [left | right]; reflexivity.
  - split; [right; reflexivity | intros D; discriminate D].
Qed.

Lemma gf_deserialize_total_witness :
  gf_weak (fst (gf_deserialize (repeat xff 32) 1 x00)).
Proof.
  refine (proj1 (gf_deserialize_total (repeat xff 32) 1 x00 _)). reflexivity.
Defined.

(** [hi_nmask] removes from the value the bits it selects in the last byte,
    before the canonicity check. *)
Theorem gf_deserialize_hi_nmask serial with_hibit hi_nmask :
  length serial = SER_BYTES ->
  gf_value (fst (gf_deserialize serial with_hibit hi_nmask))
  = le_value serial
    - 2 ^ 248 * Z.land (byte_val (nth 31 serial x00)) (byte_val hi_nmask).
Proof.
  intros Hlen.
  destruct (gf_deserialize_facts serial with_hibit hi_nmask Hlen) as (_ & Hv & _).
  cbv zeta in Hv. rewrite Hv. unfold wire_value.
  destruct (le_value_last serial Hlen) as [E _]. rewrite E, land_lnot_sub. lia.
Qed.

Lemma gf_deserialize_hi_nmask_witness :
  gf_value (fst (gf_deserialize (repeat xff 32) 1 x80))
  = le_value (repeat xff 32)
    - 2 ^ 248 * Z.land (byte_val (nth 31 (repeat xff 32) x00)) (byte_val x80).
Proof. apply (gf_deserialize_hi_nmask (repeat xff 32) 1 x80). reflexivity. Defined.

(** With no mask, a string whose last byte has its top bit set is rejected,
    whatever [with_hibit]. *)
Theorem gf_deserialize_rejects_top_bit serial with_hibit :
  length serial = SER_BYTES ->
  128 <= byte_val (nth 31 serial x00) ->
  snd (gf_deserialize serial with_hibit x00) = MASK_ZERO.
Proof.
  intros Hlen Htop.
  destruct (gf_deserialize_facts serial with_hibit x00 Hlen) as (_ & _ & _ & Hs).
  cbv zeta in Hs. rewrite Hs, (wire_value_unmasked serial Hlen).
  destruct (le_value_last serial Hlen) as [E B].
  destruct (Z.ltb_spec (le_value serial) P25519) as [L|L]; [|reflexivity].
  unfold P25519 in L. lia.
Qed.

Lemma gf_deserialize_rejects_top_bit_witness :
  snd (gf_deserialize (repeat x00 31 ++ [x80]) 1 x00) = MASK_ZERO.
Proof.
  apply (gf_deserialize_rejects_top_bit (repeat x00 31 ++ [x80]) 1).
  - reflexivity.
  - vm_compute. congruence.
Defined.

(** Without the high bit, [gf_deserialize] accepts exactly the values [v]
    with [2 v < p], the lower half of the field. *)
Theorem gf_deserialize_without_hibit serial hi_nmask :
  length serial = SER_BYTES ->
  (snd (gf_deserialize serial 0 hi_nmask) = MASK_ONES
   <-> 2 * wire_value serial hi_nmask < P25519).
Proof.
  intros Hlen.
  destruct (gf_deserialize_facts serial 0 hi_nmask Hlen) as (Hw & Hv & _ & Hs).
  cbv zeta in *. rewrite Hs. clear Hs. cbn [Z.eqb negb orb].
  set (v := wire_value serial hi_nmask) in *.
  assert (Bv : 0 <= v).
  { rewrite <- Hv. apply gf_wf_value_nonneg, gf_weak_wf. exact Hw. }
  assert (Hp : 0 < P25519) by reflexivity.
  destruct (Z.ltb_spec v P25519) as [L|L]; cbn [andb].
  - destruct (Z.lt_ge_cases (2 * v) P25519) as [S|S].
    + rewrite Z.mod_small by lia. rewrite Z.even_mul. cbn [Z.even orb].
      split; [intros _; exact S | reflexivity].
    + assert (E : (2 * v) mod P25519 = 2 * v - P25519).
      { symmetry. apply Z.mod_unique with (q := 1); lia. }
      rewrite E, Z.even_sub, Z.even_mul. cbn [Z.even orb].
      change (Z.even P25519) with false. cbn [Bool.eqb].
      split; [intros D; discriminate D | lia].
  - split; [intros D; discriminate D | lia].
Qed.

Lemma gf_deserialize_without_hibit_witness :
  snd (gf_deserialize (repeat xff 31 ++ [x3f]) 0 x00) = MASK_ONES
  <-> 2 * wire_value (repeat xff 31 ++ [x3f]) x00 < P25519.
Proof.
  apply (gf_deserialize_without_hibit (repeat xff 31 ++ [x3f]) x00). reflexivity.
Defined.

(** Bytes that [gf_deserialize] accepts are canonical: serializing the
    element read, where the assertion of [gf_serialize] holds, gives the
    same bytes back. *)
Theorem gf_deserialize_serialize serial with_hibit with_hibit' :
  length serial = SER_BYTES ->
  snd (gf_deserialize serial with_hibit x00) = MASK_ONES ->
  gf_serialize_assert (fst (gf_deserialize serial with_hibit x00)) with_hibit' = true ->
  gf_serialize (fst (gf_deserialize serial with_hibit x00)) with_hibit' = serial.
Proof.
  intros Hlen Hok _.
  destruct (gf_deserialize_facts serial with_hibit x00 Hlen) as (Hw & Hv & _ & Hs).
  cbv zeta in *. rewrite (wire_value_unmasked serial Hlen) in *.
  destruct (gf_serialize_facts _ with_hibit' (gf_weak_wf _ Hw)) as [Ls Vs].
  apply le_value_inj; [rewrite Ls, Hlen; reflexivity|].
  rewrite Vs, Hv. apply Z.mod_small.
  rewrite Hs in Hok.
  destruct (Z.ltb_spec (le_value serial) P25519) as [L|L]; [|discriminate Hok].
  destruct (le_value_last serial Hlen) as [E B].
  pose proof (byte_val_range (nth 31 serial x00)). lia.
Qed.

Lemma gf_deserialize_serialize_witness :
  gf_serialize (fst (gf_deserialize (repeat xff 31 ++ [x3f]) 1 x00)) 1
  = repeat xff 31 ++ [x3f].
Proof.
  apply (gf_deserialize_serialize (repeat xff 31 ++ [x3f]) 1 1).
  - reflexivity.
  - vm_compute. reflexivity.
  - vm_compute. reflexivity.
Defined.

(** Reading back, without the high bit, the bytes of a weakly reduced [x]
    succeeds exactly when [gf_hibit x] is clear, which is also when the
    assertion of [gf_serialize] holds. *)
Theorem gf_serialize_without_hibit x with_hibit :
  gf_weak x ->
  (snd (gf_deserialize (gf_serialize x with_hibit) 0 x00) = MASK_ONES
   <-> gf_hibit x = MASK_ZERO) /\
  (gf_serialize_assert x 0 = true <-> gf_hibit x = MASK_ZERO).
Proof.
  intros Hx. pose proof (gf_weak_wf x Hx) as Hwf.
  destruct (gf_serialize_facts x with_hibit Hwf) as [Ls Vs].
  destruct (gf_deserialize_facts _ 0 x00 Ls) as (_ & _ & _ & Hs).
  cbv zeta in Hs. rewrite (wire_value_unmasked _ Ls), Vs in Hs.
  destruct (gf_strong_reduce_facts x Hwf) as [Hl [Hv _]].
  assert (Wr : gf_weak (gf_strong_reduce x)).
  { destruct Hl as [Hlen Hall]. split; [exact Hlen|].
    eapply Forall_impl; [|exact Hall]. cbv beta. lia. }
  unfold gf_serialize_assert, gf_copy. cbn [Z.eqb negb orb].
  rewrite (gf_hibit_value _ Wr), Hv, Hs, (gf_hibit_value x Hx).
  rewrite Z.mul_mod_idemp_r by discriminate.
  rewrite <- Z.negb_odd.
  pose proof (Z.mod_pos_bound (gf_value x) P25519 ltac:(reflexivity)) as Bp.
  destruct (Z.ltb_spec (gf_value x mod P25519) P25519) as [L|L]; [|lia].
  cbn [Z.eqb negb orb andb].
  destruct (Z.odd ((2 * gf_value x) mod P25519)); cbn [negb];
    split; split; intros D; try reflexivity; try discriminate D.
Qed.

Lemma gf_serialize_without_hibit_witness :
  gf_serialize_assert [1; 0; 0; 0; 0] 0 = true <-> gf_hibit [1; 0; 0; 0; 0] = MASK_ZERO.
Proof.
  refine (proj2 (gf_serialize_without_hibit [1; 0; 0; 0; 0] 1 _)).
  split; [reflexivity | repeat constructor; cbv; congruence].
Defined.

(** ** Sign and the modulus *)

Lemma double_nonzero_mod v : v mod P25519 <> 0 -> (2 * v) mod P25519 <> 0.
Proof.
  intros Hv E. apply Hv.
  apply Z.mod_divide in E; [|discriminate].
  apply (Z.divide_prime_mul _ _ _ P25519_prime) in E. destruct E as [E|E].
  - apply Z.divide_pos_le in E; [|lia]. vm_compute in E. contradiction E. reflexivity.
  - apply Z.mod_divide; [discriminate | exact E].
Qed.

Lemma odd_opp_mod v :
  v mod P25519 <> 0 -> Z.odd ((- v) mod P25519) = negb (Z.odd (v mod P25519)).
Proof.
  intros Hv. rewrite Z.mod_opp_l_nz by (discriminate || exact Hv).
  rewrite Z.odd_sub. change (Z.odd P25519) with true.
  destruct (Z.odd (v mod P25519)); reflexivity.
Qed.

(** Negation flips both sign bits of a nonzero element: exactly one of [x]
    and [0 - x] has [gf_lobit] set, and exactly one has [gf_hibit] set. *)
Theorem gf_negate_flips_sign x :
  gf_weak x -> gf_value x mod P25519 <> 0 ->
  (gf_lobit (gf_sub ZERO x) = MASK_ONES <-> gf_lobit x = MASK_ZERO) /\
  (gf_hibit (gf_sub ZERO x) = MASK_ONES <-> gf_hibit x = MASK_ZERO).
Proof.
  intros Hx Hv.
  assert (WZ : gf_weak ZERO) by limbs_solve.
  pose proof (gf_sub_weak ZERO x WZ Hx) as Wn.
  pose proof (gf_sub_mod ZERO x WZ Hx) as Vn.
  change (gf_value ZERO - gf_value x) with (- gf_value x) in Vn.
  rewrite (gf_lobit_value _ (gf_weak_wf _ Wn)), (gf_lobit_value x (gf_weak_wf x Hx)).
  rewrite (gf_hibit_value _ Wn), (gf_hibit_value x Hx).
  rewrite Vn, (odd_opp_mod _ Hv).
  rewrite <- (Z.mul_mod_idemp_r 2 (gf_value (gf_sub ZERO x))), Vn by discriminate.
  rewrite Z.mul_mod_idemp_r by discriminate.
  replace (2 * - gf_value x) with (- (2 * gf_value x)) by lia.
  rewrite (odd_opp_mod _ (double_nonzero_mod _ Hv)).
  split.
  - destruct (Z.odd (gf_value x mod P25519)); cbn [negb];
      split; intros D; try reflexivity; discriminate D.
  - destruct (Z.odd ((2 * gf_value x) mod P25519)); cbn [negb];
      split; intros D; try reflexivity; discriminate D.
Qed.

Lemma gf_negate_flips_sign_witness :
  gf_lobit (gf_sub ZERO ONE) = MASK_ONES <-> gf_lobit ONE = MASK_ZERO.
Proof.
  refine (proj1 (gf_negate_flips_sign ONE _ _)).
  - split; [reflexivity | repeat constructor; cbv; congruence].
  - vm_compute. congruence.
Defined.

(** The limbs of [MODULUS] are canonical digits of [2^255 - 19], which is a
    prime number. *)
Theorem MODULUS_prime :
  limbs_below 51 MODULUS /\ gf_value MODULUS = 2 ^ 255 - 19 /\
  Z.prime (gf_value MODULUS).
Proof.
  split; [split; [reflexivity | repeat constructor; cbv; congruence]|].
  split; [reflexivity|]. exact P25519_prime.
Qed.

(** ** Inverse square root of a square *)

(** On a nonzero square [x = y^2], [gf_isr] succeeds and returns an inverse
    of [y] up to sign: [a y] is 1 or -1 modulo p. *)
Theorem gf_isr_of_square gf_mul gf_sqr x y :
  gf_mul_contract gf_mul -> gf_sqr_contract gf_sqr -> gf_weak x ->
  gf_value x mod P25519 <> 0 ->
  (y * y) mod P25519 = gf_value x mod P25519 ->
  snd (gf_isr gf_mul gf_sqr x) = MASK_ONES /\
  ((gf_value (fst (gf_isr gf_mul gf_sqr x)) * y) mod P25519 = 1 \/
   (gf_value (fst (gf_isr gf_mul gf_sqr x)) * y) mod P25519 = P25519 - 1).
Proof.
  intros Hmul Hsqr Hx Hv Hy.
  destruct (gf_isr_facts gf_mul gf_sqr Hmul Hsqr x Hx) as (_ & _ & H).
  cbv zeta in H. destruct (H Hv) as (_ & _ & Hw & Hq). clear H.
  assert (Hok : snd (gf_isr gf_mul gf_sqr x) = MASK_ONES).
  { apply Hq. exists y. exact Hy. }
  split; [exact Hok|].
  apply Hw in Hok.
  set (g := gf_value (fst (gf_isr gf_mul gf_sqr x))) in *.
  assert (E : ((g * y) * (g * y)) mod P25519 = 1).
  { rewrite <- Hok.
    replace (g * y * (g * y)) with (g * g * (y * y)) by ring.
    apply mod_mul_congr; [reflexivity | exact Hy]. }
  rewrite Z.mul_mod in E by discriminate.
  pose proof (Z.mod_pos_bound (g * y) P25519 ltac:(reflexivity)) as B.
  set (z := (g * y) mod P25519) in *. clearbody z.
  assert (D : (P25519 | (z - 1) * (z + 1))).
  { apply Z.mod_divide; [discriminate|].
    replace ((z - 1) * (z + 1)) with (z * z - 1) by ring.
    rewrite <- Zminus_mod_idemp_l, E. reflexivity. }
  assert (1 < P25519) by reflexivity.
  apply (Z.divide_prime_mul _ _ _ P25519_prime) in D. destruct D as [D|D].
  - left. apply divide_small_zero in D; lia.
  - right. destruct D as [k Hk].
    assert (k = 1) by nia. lia.
Qed.

Lemma gf_isr_of_square_witness :
  snd (gf_isr gf_mul_ref gf_sqr_ref [4; 0; 0; 0; 0]) = MASK_ONES.
Proof.
  refine (proj1 (gf_isr_of_square gf_mul_ref gf_sqr_ref [4; 0; 0; 0; 0] 2
                   gf_mul_ref_contract gf_sqr_ref_contract _ _ _)).
  - split; [reflexivity | repeat constructor; cbv; congruence].
  - vm_compute. congruence.
  - vm_compute. reflexivity.
Defined.

(** ** Bias beyond the exact range, and the meaning of the high bit *)

Lemma u64_add_idemp x y : u64 (x + u64 y) = u64 (x + y).
Proof. apply Zplus_mod_idemp_r. Qed.

(** For any amount whose products fit in an [int], [gf_bias] adds the bias
    to each limb modulo [2^64]. *)
Theorem gf_bias_wraps a amt :
  gf_wf a -> 0 <= amt < 2 ^ 31 / 38 ->
  gf_bias a amt
  = map (fun i => (limb a i + bias_addend amt i) mod 2 ^ 64) (seq 0 5).
Proof.
  intros H Hamt. change (2 ^ 31 / 38) with 56512727 in Hamt.
  gf_destruct a H. unfold gf_bias. loops_unfold. unfold bias_addend.
  rewrite (u64_small amt) by lia.
  rewrite Z.shiftl_mul_pow2 by lia.
  rewrite !u64_sub_idemp, !s32_small by lia.
  rewrite !u64_add_idemp. reflexivity.
Qed.

Lemma gf_bias_wraps_witness :
  gf_bias [0; 0; 0; 0; 0] 4097
  = map (fun i => (limb [0; 0; 0; 0; 0] i + bias_addend 4097 i) mod 2 ^ 64) (seq 0 5).
Proof.
  apply (gf_bias_wraps [0; 0; 0; 0; 0] 4097).
  - split; [reflexivity | repeat constructor; cbv; congruence].
  - split; [cbv; congruence | reflexivity].
Defined.

(** [gf_hibit] is set exactly on the upper half of the field: when twice the
    canonical representative exceeds p. *)
Theorem gf_hibit_upper_half x :
  gf_weak x ->
  (gf_hibit x = MASK_ONES <-> P25519 < 2 * (gf_value x mod P25519)).
Proof.
  intros Hx. rewrite (gf_hibit_value x Hx).
  rewrite <- Z.mul_mod_idemp_r by discriminate.
  pose proof (Z.mod_pos_bound (gf_value x) P25519 ltac:(reflexivity)) as B.
  set (r := gf_value x mod P25519) in *. clearbody r.
  assert (Hp : P25519 = 2 * (2 ^ 254 - 10) + 1) by reflexivity.
  destruct (Z.lt_ge_cases (2 * r) P25519) as [S|S].
  - rewrite Z.mod_small by lia. rewrite Z.odd_mul. cbn [Z.odd andb].
    split; [intros D; discriminate D | lia].
  - assert (E : (2 * r) mod P25519 = 2 * r - P25519).
    { symmetry. apply Z.mod_unique with (q := 1); lia. }
    rewrite E, Z.odd_sub, Z.odd_mul. cbn [Z.odd andb].
    change (Z.odd P25519) with true. cbn [xorb].
    split; [intros _; lia | reflexivity].
Qed.

Lemma gf_hibit_upper_half_witness :
  gf_hibit [2 ^ 51 - 20; 2 ^ 51 - 1; 2 ^ 51 - 1; 2 ^ 51 - 1; 2 ^ 51 - 1] = MASK_ONES
  <-> P25519 < 2 * (gf_value [2 ^ 51 - 20; 2 ^ 51 - 1; 2 ^ 51 - 1; 2 ^ 51 - 1; 2 ^ 51 - 1]
                    mod P25519).
Proof.
  apply (gf_hibit_upper_half [2 ^ 51 - 20; 2 ^ 51 - 1; 2 ^ 51 - 1; 2 ^ 51 - 1; 2 ^ 51 - 1]).
  split; [reflexivity | repeat constructor; cbv; congruence].
Defined.
